(** * markdown-it-mention: the mention scanner, splitter and renderer

    A shallow embedding of [src/plugin.ts] and the properties of its
    specification.

    Strings.  A JavaScript string is modelled by the list of its code
    points ([str]).  The mention pattern carries the [u] flag, so the
    engine reads the subject code point by code point and every match
    starts and ends on a code point boundary; [match.index],
    [String.prototype.substring] and [length] therefore cut the subject at
    the same places whether they count code units or code points, and the
    model counts code points.

    Numbers.  Depth counters, nesting levels and the render index are
    JavaScript numbers and are modelled by [Z]; offsets into a string are
    never negative and are modelled by [nat]. *)

From Stdlib Require Import String Ascii.
From Stdlib Require Import List Bool Arith ZArith NArith Lia.
Import ListNotations.

(** ** Strings *)

Definition char := N.
Definition str := list char.

(** An ASCII literal as a JavaScript string. *)
Definition js (s : string) : str :=
  List.map N_of_ascii (list_ascii_of_string s).
Arguments js s%_string.

Fixpoint str_eqb (a b : str) : bool :=
  match a, b with
  | [], [] => true
  | x :: a', y :: b' => N.eqb x y && str_eqb a' b'
  | _, _ => false
  end.

(** The code points the plugin names. *)
Definition AT : char := 64%N.          (* @ *)
Definition DOT : char := 46%N.         (* . *)
Definition UNDERSCORE : char := 95%N.  (* _ *)
Definition HYPHEN : char := 45%N.      (* - *)

(** [String.prototype.substring(start, end)] for integer arguments that are
    not negative: both are clamped to the length and swapped when
    [start > end]. *)
Definition substring (s : str) (start finish : nat) : str :=
  let a := Nat.min start (length s) in
  let b := Nat.min finish (length s) in
  let lo := Nat.min a b in
  let hi := Nat.max a b in
  firstn (hi - lo) (skipn lo s).

(** [String.prototype.substring(start)]. *)
Definition substringFrom (s : str) (start : nat) : str :=
  substring s start (length s).

(** ** The regular-expression engine

    The backtracking matcher of ECMAScript (ECMA-262, 22.2.2), restricted
    to the constructs [MENTION_PATTERN] uses: pattern characters, character
    classes, sequencing, greedy quantifiers and capturing groups.  A
    matcher takes the current state and a continuation; failure of the
    continuation makes the matcher try its next alternative. *)

Inductive Regex : Type :=
| RChar (c : char)
| RClass (p : char -> bool)
| RSeq (r1 r2 : Regex)
| RRepeat (r : Regex) (min : nat) (max : option nat)
| RGroup (n : nat) (r : Regex).

Record MatchState : Type := mkMatchState
  { endIndex : nat;
    captures : list (option (nat * nat)) }.

Definition Continuation := MatchState -> option MatchState.
Definition Matcher := MatchState -> Continuation -> option MatchState.

Fixpoint setCapture (n : nat) (v : option (nat * nat))
  (caps : list (option (nat * nat))) {struct caps}
  : list (option (nat * nat)) :=
  match caps with
  | [] => []
  | c :: rest =>
      match n with
      | 0 => c :: rest
      | 1 => v :: rest
      | S n' => c :: setCapture n' v rest
      end
  end.

Definition getCapture (n : nat) (caps : list (option (nat * nat)))
  : option (nat * nat) :=
  match n with
  | 0 => None
  | S n' => nth n' caps None
  end.

(** The capturing groups that occur in a pattern. *)
Fixpoint groupsOf (r : Regex) : list nat :=
  match r with
  | RChar _ | RClass _ => []
  | RSeq r1 r2 => groupsOf r1 ++ groupsOf r2
  | RRepeat r _ _ => groupsOf r
  | RGroup n r => n :: groupsOf r
  end.

Definition clearCaptures (parens : list nat) (x : MatchState) : MatchState :=
  {| endIndex := endIndex x;
     captures := fold_left (fun caps n => setCapture n None caps) parens
                   (captures x) |}.

Section Engine.

Variable Input : str.

(** CharacterSetMatcher: one code point of the subject, tested by [p]. *)
Definition CharacterSetMatcher (p : char -> bool) : Matcher :=
  fun x c =>
    match nth_error Input (endIndex x) with
    | None => None
    | Some ch =>
        if p ch
        then c {| endIndex := S (endIndex x); captures := captures x |}
        else None
    end.

(** RepeatMatcher for a greedy quantifier.  [fuel] bounds the depth of
    the recursion; [compile] supplies more than any run can use (lemma
    [RepeatMatcher_fuel]). *)
Fixpoint RepeatMatcher (m : Matcher) (fuel : nat) (min : nat)
  (max : option nat) (parens : list nat) (x : MatchState)
  (c : Continuation) {struct fuel} : option MatchState :=
  match max with
  | Some 0 => c x
  | _ =>
      match fuel with
      | 0 => None
      | S fuel' =>
          let d : Continuation := fun y =>
            if (min =? 0) && (endIndex y =? endIndex x) then None
            else RepeatMatcher m fuel' (Nat.pred min)
                   (option_map Nat.pred max) parens y c in
          let xr := clearCaptures parens x in
          if negb (min =? 0) then m xr d
          else match m xr d with
               | Some z => Some z
               | None => c x
               end
      end
  end.

Fixpoint compile (r : Regex) : Matcher :=
  match r with
  | RChar ch => CharacterSetMatcher (N.eqb ch)
  | RClass p => CharacterSetMatcher p
  | RSeq r1 r2 => fun x c => compile r1 x (fun y => compile r2 y c)
  | RRepeat r' min max =>
      fun x c =>
        RepeatMatcher (compile r')
          (S (min + (length Input - endIndex x))) min max (groupsOf r') x c
  | RGroup n r' =>
      fun x c =>
        compile r' x (fun y =>
          c {| endIndex := endIndex y;
               captures := setCapture n (Some (endIndex x, endIndex y))
                             (captures y) |})
  end.

(** One attempt of the pattern at offset [i], every capture undefined. *)
Definition matchAt (r : Regex) (i : nat) : option MatchState :=
  compile r
    {| endIndex := i;
       captures := repeat None (list_max (groupsOf r)) |}
    (fun y => Some y).

End Engine.

(** The match object: [index], [match[0]] and [match[1]]. *)
Record RegExpMatch : Type := mkMatch
  { index : nat;
    whole : str;
    group1 : option str }.

Definition toMatch (Input : str) (i : nat) (y : MatchState) : RegExpMatch :=
  {| index := i;
     whole := substring Input i (endIndex y);
     group1 := option_map (fun se => substring Input (fst se) (snd se))
                 (getCapture 1 (captures y)) |}.

(** [String.prototype.matchAll] with a global pattern: the candidate start
    offsets are visited in increasing order; offsets before [lastIndex] are
    skipped; a match moves [lastIndex] to its end, or one further when the
    match is empty. *)
Fixpoint scan (r : Regex) (Input : str) (starts : list nat) (lastIndex : nat)
  : list RegExpMatch :=
  match starts with
  | [] => []
  | i :: starts' =>
      if i <? lastIndex then scan r Input starts' lastIndex
      else match matchAt Input r i with
           | None => scan r Input starts' (S i)
           | Some y =>
               let e := endIndex y in
               toMatch Input i y
                 :: scan r Input starts' (if e =? i then S e else e)
           end
  end.

Definition matchAll (r : Regex) (Input : str) : list RegExpMatch :=
  scan r Input (seq 0 (S (length Input))) 0.

(** ** Tokens, environment, options *)

(** A markdown-it inline token, with the fields the plugin reads or
    writes.  [attrs] is [null] until attributes are set. *)
Record Token : Type := mkToken
  { type : string;
    tag : string;
    nesting : Z;
    attrs : option (list (str * str));
    level : Z;
    content : str;
    info : str }.

(** [new state.Token(type, tag, nesting)]. *)
Definition newToken (type tag : string) (nesting : Z) : Token :=
  {| type := type; tag := tag; nesting := nesting; attrs := None;
     level := 0%Z; content := []; info := [] |}.

Definition set_content (t : Token) (v : str) : Token :=
  {| type := type t; tag := tag t; nesting := nesting t; attrs := attrs t;
     level := level t; content := v; info := info t |}.
Definition set_level (t : Token) (v : Z) : Token :=
  {| type := type t; tag := tag t; nesting := nesting t; attrs := attrs t;
     level := v; content := content t; info := info t |}.
Definition set_attrs (t : Token) (v : list (str * str)) : Token :=
  {| type := type t; tag := tag t; nesting := nesting t; attrs := Some v;
     level := level t; content := content t; info := info t |}.
Definition set_info (t : Token) (v : str) : Token :=
  {| type := type t; tag := tag t; nesting := nesting t; attrs := attrs t;
     level := level t; content := content t; info := v |}.

(** A block-level token; [children] is [null] unless the block holds
    inline content. *)
Record BlockToken : Type := mkBlock
  { btype : string;
    children : option (list Token) }.

(** The environment, a value of JavaScript type [any].  [EnvObject] is a
    value for which [typeof env === "object" && env !== null] holds; its
    [mentions] property, when present, is a list of strings, which is the
    one contract the data model puts on the environment (line 176 calls
    [push] on whatever the property holds; a property of another kind is
    outside the data model and has no place here, and neither has an
    object that does not take a new property or a list that does not take
    a new element, for which lines 174 and 176 throw).  [props] are the
    caller's own properties, which the core never reads.  [EnvOther] is
    every other value ([undefined], [null], a primitive).  What is stated
    below about the environment is stated about these values only. *)
Inductive Env : Type :=
| EnvObject (mentions : option (list str)) (props : list (str * str))
| EnvOther.

(** A [Record<string, string>], by its entries in enumeration order. *)
Definition JsRecord := list (str * str).

(** [PluginOptions]: four optional resolvers.  A resolver that returns
    [null] returns [None]. *)
Record PluginOptions : Type := mkOptions
  { localDomain : option (str -> Env -> option str);
    link : option (str -> Env -> option str);
    linkAttributes : option (str -> Env -> JsRecord);
    label : option (str -> Env -> str) }.

Record StateCore : Type := mkState
  { tokens : list BlockToken;
    env : Env }.

(** [options?.f]: the resolver [f] of options that may be absent. *)
Definition opt {A : Type} (options : option PluginOptions)
  (f : PluginOptions -> option A) : option A :=
  match options with
  | None => None
  | Some o => f o
  end.

(** [obj[key] = value] on a record whose entries are [r]: an existing
    property keeps its place and takes the new value, a new property goes
    last ([href] is not an integer-like key). *)
Fixpoint setProperty (r : JsRecord) (key value : str) : JsRecord :=
  match r with
  | [] => [(key, value)]
  | (k, v) :: r' =>
      if str_eqb k key then (k, value) :: r'
      else (k, v) :: setProperty r' key value
  end.

Fixpoint getProperty (r : JsRecord) (key : str) : option str :=
  match r with
  | [] => None
  | (k, v) :: r' => if str_eqb k key then Some v else getProperty r' key
  end.

(** The outcome of a call: a value, or a thrown error. *)
Inductive JsError : Type := TypeError.

Inductive Completion (A : Type) : Type :=
| Normal (a : A)
| Throw (e : JsError).
Arguments Normal {A} a.
Arguments Throw {A} e.

(** What the plugin takes from its surroundings: the Unicode tables of the
    regular-expression engine, its sibling modules [./html.ts] and
    [./label.ts], and the host's renderer. *)
Class Host : Type := mkHost
  { (** membership in [\p{L}] and in [\p{N}] as the engine decides them
        under the flags [iu] *)
    unicodeLetter : char -> bool;
    unicodeNumber : char -> bool;
    (** [isLinkOpen] and [isLinkClose] of [./html.ts] *)
    isLinkOpen : str -> bool;
    isLinkClose : str -> bool;
    (** [toBareHandle] of [./label.ts] *)
    toBareHandle : str -> Env -> str;
    (** [self.renderAttrs] and [self.renderToken] of the host's renderer,
        and the host's output for a token that has no rule of the plugin *)
    renderAttrs : Token -> str;
    renderToken : list Token -> Z -> str;
    (** the host's rules for the other inline tokens and for the block
        tokens; they leave the environment alone *)
    inlineRule : list Token -> Z -> str;
    blockRule : list BlockToken -> Z -> str }.

Section Plugin.

Context {host : Host}.

(** *** The mention pattern

    [/@[\p{L}\p{N}._-]+(@(?:[\p{L}\p{N}][\p{L}\p{N}_-]*\.)+[\p{L}\p{N}]{2,})?/giu].
    The literal characters of the pattern, [@ . _ -], are their own case
    folding and no other code point folds to them, so under [i] they are
    compared as they are. *)

Definition letterOrNumber (c : char) : bool :=
  unicodeLetter c || unicodeNumber c.

(** [[\p{L}\p{N}._-]] *)
Definition handleChar (c : char) : bool :=
  letterOrNumber c || N.eqb c DOT || N.eqb c UNDERSCORE || N.eqb c HYPHEN.

(** [[\p{L}\p{N}_-]] *)
Definition labelChar (c : char) : bool :=
  letterOrNumber c || N.eqb c UNDERSCORE || N.eqb c HYPHEN.

Definition MENTION_PATTERN : Regex :=
  RSeq (RChar AT)                                       (* @ *)
    (RSeq (RRepeat (RClass handleChar) 1 None)          (* [...]+ *)
       (RRepeat                                         (* (...)? *)
          (RGroup 1
             (RSeq (RChar AT)                           (* @ *)
                (RSeq
                   (RRepeat                             (* (?:...)+ *)
                      (RSeq (RClass letterOrNumber)
                         (RSeq (RRepeat (RClass labelChar) 0 None)
                            (RChar DOT)))               (* \. *)
                      1 None)
                   (RRepeat (RClass letterOrNumber) 2 None))))  (* {2,} *)
          0 (Some 1))).

(** *** The splitter *)

(** A text token with the given content and nesting level (lines
    123-125, 131-133 and 152-154 of the source). *)
Definition textToken (s : str) (lvl : Z) : Token :=
  let token := newToken "text" "" 0 in
  let token := set_content token s in
  set_level token lvl.

(** Lines 113-120: the handle of a match, completed with the local
    domain when the match has no domain of its own; [None] is the
    [continue] of line 118. *)
Definition completeHandle (state : StateCore)
  (options : option PluginOptions) (m : RegExpMatch) : option str :=
  let handle := whole m in
  match group1 m with
  | None =>
      let localDomain :=
        match opt options localDomain with
        | None => None
        | Some f => f handle (env state)
        end in
      match localDomain with
      | None => None
      | Some d => Some (handle ++ AT :: d)
      end
  | Some _ => Some handle
  end.

(** Line 129: the link target the resolver gives; [None] when no resolver
    is configured or when it returns no value. *)
Definition resolveHref (state : StateCore) (options : option PluginOptions)
  (handle : str) : option str :=
  match opt options link with
  | Some f => f handle (env state)
  | None => None
  end.

(** Line 143: the attributes the resolver gives, none without a
    resolver. *)
Definition givenAttributes (state : StateCore)
  (options : option PluginOptions) (handle : str) : JsRecord :=
  match opt options linkAttributes with
  | Some f => f handle (env state)
  | None => []
  end.

(** Line 144: [href ?? `acct:${handle}`]. *)
Definition linkTarget (handle : str) (href : option str) : str :=
  match href with
  | Some h => h
  | None => js "acct:" ++ handle
  end.

(** Lines 139-147: the mention token of a completed handle. *)
Definition mentionToken (state : StateCore)
  (options : option PluginOptions) (lvl : Z) (handle : str)
  (href : option str) : Token :=
  let token := newToken "mention" "" 0 in
  let token :=
    set_content token
      match opt options label with
      | Some f => f handle (env state)
      | None => toBareHandle handle (env state)
      end in
  let token := set_level token lvl in
  let attrs := givenAttributes state options handle in
  let attrs := setProperty attrs (js "href") (linkTarget handle href) in
  let token := set_attrs token attrs in
  set_info token handle.

(** Lines 122-127: the text between [pos] and the match, when there is
    any, becomes a text token. *)
Definition pushBefore (content : str) (lvl : Z) (pos : nat)
  (tokens : list Token) (m : RegExpMatch) : list Token :=
  if pos <? index m
  then tokens ++ [textToken (substring content pos (index m)) lvl]
  else tokens.

(** Lines 122-148: what the loop does with a match whose handle is
    [handle], on the loop's variables [pos] and [tokens]. *)
Definition pushMatch (content : str) (lvl : Z) (state : StateCore)
  (options : option PluginOptions) (acc : nat * list Token)
  (m : RegExpMatch) (handle : str) : nat * list Token :=
  let '(pos, tokens) := acc in
  let tokens := pushBefore content lvl pos tokens m in
  let href := resolveHref state options handle in
  match href, opt options link with
  | None, Some _ =>
      (index m + length (whole m), tokens ++ [textToken (whole m) lvl])
  | _, _ =>
      (index m + length (whole m),
       tokens ++ [mentionToken state options lvl handle href])
  end.

(** The body of the loop over the matches (lines 111-148).  The test of
    line 111 never holds: a match of [matchAll] has an [index]. *)
Definition loopBody (content : str) (lvl : Z) (state : StateCore)
  (options : option PluginOptions) (acc : nat * list Token)
  (m : RegExpMatch) : nat * list Token :=
  match completeHandle state options m with
  | None => acc
  | Some handle => pushMatch content lvl state options acc m handle
  end.

(** Lines 102-159. *)
Definition splitTokens (token : Token) (state : StateCore)
  (options : option PluginOptions) : list Token :=
  let content := content token in
  let lvl := level token in
  let '(pos, tokens) :=
    fold_left (loopBody content lvl state options)
      (matchAll MENTION_PATTERN content) (0, []) in
  if pos <? length content
  then tokens ++ [textToken (substringFrom content pos) lvl]
  else tokens.

(** *** The scanner *)

(** Lines 78-88: the two depth counters after a token is counted. *)
Definition countDepth (depth : Z * Z) (token : Token) : Z * Z :=
  let '(linkDepth, htmlLinkDepth) := depth in
  if (type token =? "link_open")%string then
    (linkDepth + 1, htmlLinkDepth)%Z
  else if (type token =? "link_close")%string then
    (linkDepth - 1, htmlLinkDepth)%Z
  else if (type token =? "html_inline")%string then
    if isLinkOpen (content token) then
      (linkDepth, htmlLinkDepth + 1)%Z
    else if isLinkClose (content token) then
      (linkDepth, htmlLinkDepth - 1)%Z
    else (linkDepth, htmlLinkDepth)
  else (linkDepth, htmlLinkDepth).

(** The condition of lines 89-91: the token is returned as it is. *)
Definition keepsToken (linkDepth htmlLinkDepth : Z) (token : Token)
  : bool :=
  (linkDepth >? 0)%Z || (htmlLinkDepth >? 0)%Z
  || negb (type token =? "text")%string.

(** The callback of [flatMap] (lines 77-95): the counters after the
    token and the tokens that replace it. *)
Definition visit (state : StateCore) (options : option PluginOptions)
  (depth : Z * Z) (token : Token) : (Z * Z) * list Token :=
  let '(linkDepth, htmlLinkDepth) := countDepth depth token in
  ((linkDepth, htmlLinkDepth),
   if keepsToken linkDepth htmlLinkDepth token then [token]
   else splitTokens token state options).

(** [children.flatMap(...)], the counters carried from child to child. *)
Fixpoint flatMap (state : StateCore) (options : option PluginOptions)
  (depth : Z * Z) (children : list Token) : list Token :=
  match children with
  | [] => []
  | token :: rest =>
      let '(depth', out) := visit state options depth token in
      out ++ flatMap state options depth' rest
  end.

(** One turn of the loop over the block tokens (lines 73-95). *)
Definition parseBlock (state : StateCore) (options : option PluginOptions)
  (blockToken : BlockToken) : BlockToken :=
  if negb (btype blockToken =? "inline")%string then blockToken
  else
    match children blockToken with
    | None => blockToken
    | Some cs =>
        {| btype := btype blockToken;
           children := Some (flatMap state options (0, 0)%Z cs) |}
    end.

(** Lines 71-97: every block token is taken in turn; the splitter reads
    of [state] its environment only. *)
Definition parseMention (state : StateCore)
  (options : option PluginOptions) : StateCore :=
  {| tokens := List.map (parseBlock state options) (tokens state);
     env := env state |}.

(** *** The renderer *)

(** [renderMention(tokens, idx, opts, env, self)]: the markup returned
    and the environment after the call, or the [TypeError] of reading a
    property of [undefined]. *)
Definition renderMention (tokens : list Token) (idx : Z) (env : Env)
  : Completion (str * Env) :=
  if (Z.of_nat (length tokens) <=? idx)%Z then Normal ([], env)
  else
    match (if (idx <? 0)%Z then None
           else nth_error tokens (Z.to_nat idx)) with
    | None => Throw TypeError
    | Some token =>
        if negb (type token =? "mention")%string
        then Normal (renderToken tokens idx, env)
        else
          let env :=
            match env with
            | EnvObject mentions props =>
                let mentions :=
                  match mentions with
                  | None => []
                  | Some l => l
                  end in
                EnvObject (Some (mentions ++ [info token])) props
            | EnvOther => EnvOther
            end in
          Normal (js "<a " ++ renderAttrs token ++ js ">"
                    ++ content token ++ js "</a>", env)
    end.

(** *** The host's render pass

    markdown-it's [Renderer.renderInline] and [Renderer.render]: the
    tokens are rendered in order, each by the rule registered for its
    type; the plugin registers [renderMention] for [mention]. *)

Definition renderRule (tokens : list Token) (idx : Z) (env : Env)
  : Completion (str * Env) :=
  match nth_error tokens (Z.to_nat idx) with
  | Some token =>
      if (type token =? "mention")%string
      then renderMention tokens idx env
      else Normal (inlineRule tokens idx, env)
  | None => Normal ([], env)
  end.

Fixpoint renderLoop {A : Type}
  (rule : list A -> Z -> Env -> Completion (str * Env))
  (tokens : list A) (idxs : list nat) (result : str) (env : Env)
  : Completion (str * Env) :=
  match idxs with
  | [] => Normal (result, env)
  | i :: idxs' =>
      match rule tokens (Z.of_nat i) env with
      | Throw e => Throw e
      | Normal (out, env') =>
          renderLoop rule tokens idxs' (result ++ out) env'
      end
  end.

Definition renderInline (tokens : list Token) (env : Env)
  : Completion (str * Env) :=
  renderLoop renderRule tokens (seq 0 (length tokens)) [] env.

Definition renderBlockRule (tokens : list BlockToken) (idx : Z) (env : Env)
  : Completion (str * Env) :=
  match nth_error tokens (Z.to_nat idx) with
  | Some blockToken =>
      if (btype blockToken =? "inline")%string
      then renderInline
             match children blockToken with
             | Some cs => cs
             | None => []
             end env
      else Normal (blockRule tokens idx, env)
  | None => Normal ([], env)
  end.

Definition render (tokens : list BlockToken) (env : Env)
  : Completion (str * Env) :=
  renderLoop renderBlockRule tokens (seq 0 (length tokens)) [] env.

End Plugin.

(** ** A host for evaluation

    The Unicode tables restricted to ASCII, the helpers of [./html.ts] and
    [./label.ts] after the specification, and markdown-it's attribute
    rendering.  Every engine agrees with these tables on ASCII subjects
    ([asciiTables] below); the general statements hold for every host. *)

Definition QUOTE : char := 34%N.
Definition asciiLetter (c : char) : bool :=
  ((65 <=? c) && (c <=? 90) || (97 <=? c) && (c <=? 122))%N.
Definition asciiDigit (c : char) : bool :=
  ((48 <=? c) && (c <=? 57))%N.
Definition asciiSpace (c : char) : bool :=
  ((9 <=? c) && (c <=? 13) || (c =? 32))%N.

(** Modelled from the spec: [isLinkOpen] of [./html.ts], which is not
    among the sources: raw inline markup is an anchor open tag when it
    matches an anchor start tag case-insensitively, its attributes
    ignored; here [<a] followed by [>] or white space. *)
Definition specIsLinkOpen (s : str) : bool :=
  match s with
  | lt :: a :: c :: _ =>
      ((lt =? 60) && ((a =? 97) || (a =? 65))
       && ((c =? 62) || asciiSpace c))%N
  | _ => false
  end.

Fixpoint dropSpaces (s : str) : str :=
  match s with
  | c :: s' => if asciiSpace c then dropSpaces s' else s
  | [] => []
  end.

(** Modelled from the spec: [isLinkClose] of [./html.ts], which is not
    among the sources: raw inline markup is an anchor close tag when it
    matches an anchor end tag case-insensitively; here [</a], white space
    if any, and [>]. *)
Definition specIsLinkClose (s : str) : bool :=
  match s with
  | lt :: sl :: a :: rest =>
      ((lt =? 60) && (sl =? 47) && ((a =? 97) || (a =? 65)))%N
      && match dropSpaces rest with
         | gt :: _ => (gt =? 62)%N
         | [] => false
         end
  | _ => false
  end.

(** The part of a handle between its first [@] and the next one. *)
Fixpoint upToAt (s : str) : str :=
  match s with
  | [] => []
  | c :: s' => if N.eqb c AT then [] else c :: upToAt s'
  end.

Definition span (cls : string) (body : str) : str :=
  js "<span class=" ++ QUOTE :: js cls ++ QUOTE :: js ">" ++ body
    ++ js "</span>".

(** Modelled from the spec: [toBareHandle] of [./label.ts], which is not
    among the sources: the default label wraps the [@] and the local part
    of the handle in spans of their own; the bare label leaves the domain
    out, as [plugin.test.ts] expects of it. *)
Definition specToBareHandle (handle : str) (_ : Env) : str :=
  span "at" [AT] ++ span "user" (upToAt (tl handle)).

(** markdown-it's [escapeHtml] and [Renderer.prototype.renderAttrs]. *)
Definition escapeHtml (s : str) : str :=
  flat_map (fun c =>
    if N.eqb c 38 then js "&amp;"
    else if N.eqb c 60 then js "&lt;"
    else if N.eqb c 62 then js "&gt;"
    else if N.eqb c QUOTE then js "&quot;"
    else [c]) s.

Definition mdRenderAttrs (token : Token) : str :=
  match attrs token with
  | None => []
  | Some l =>
      flat_map (fun kv =>
        js " " ++ escapeHtml (fst kv) ++ js "=" ++ QUOTE
          :: escapeHtml (snd kv) ++ [QUOTE]) l
  end.

(** markdown-it's rule for text tokens; the other rules of the host play
    no part below and render nothing here. *)
Definition mdInlineRule (tokens : list Token) (idx : Z) : str :=
  match nth_error tokens (Z.to_nat idx) with
  | Some token =>
      if (type token =? "text")%string then escapeHtml (content token)
      else []
  | None => []
  end.

Definition asciiHost : Host :=
  {| unicodeLetter := asciiLetter;
     unicodeNumber := asciiDigit;
     isLinkOpen := specIsLinkOpen;
     isLinkClose := specIsLinkClose;
     toBareHandle := specToBareHandle;
     renderAttrs := mdRenderAttrs;
     renderToken := fun _ _ => [];
     inlineRule := mdInlineRule;
     blockRule := fun _ _ => [] |}.

(** A host whose tables are those of Unicode on the ASCII range: the
    letters are [A-Z] and [a-z], the numbers [0-9], and no ASCII code
    point folds to another class. *)
Definition asciiTables (host : Host) : Prop :=
  forall c : char, (c < 128)%N ->
    unicodeLetter c = asciiLetter c /\ unicodeNumber c = asciiDigit c.

Definition isAscii (s : str) : Prop := Forall (fun c : char => (c < 128)%N) s.

(** ** Notions the statements use *)

(** A lower bound on what a pattern consumes. *)
Fixpoint minLen (r : Regex) : nat :=
  match r with
  | RChar _ | RClass _ => 1
  | RSeq r1 r2 => minLen r1 + minLen r2
  | RRepeat _ _ _ => 0
  | RGroup _ r' => minLen r'
  end.

(** The matches [ms] lie in [s], in order, none starting before [p]. *)
Fixpoint matchesFrom (s : str) (p : nat) (ms : list RegExpMatch) : Prop :=
  match ms with
  | [] => True
  | m :: ms' =>
      p <= index m
      /\ index m + length (whole m) <= length s
      /\ whole m = substring s (index m) (index m + length (whole m))
      /\ matchesFrom s (index m + length (whole m)) ms'
  end.

Definition isText (t : Token) : bool := (type t =? "text")%string.
Definition isMention (t : Token) : bool := (type t =? "mention")%string.

(** How many tokens of a list open a markdown link, and how many close
    one. *)
Definition opens (ts : list Token) : Z :=
  Z.of_nat (length (filter (fun t => (type t =? "link_open")%string) ts)).
Definition closes (ts : list Token) : Z :=
  Z.of_nat (length (filter (fun t => (type t =? "link_close")%string) ts)).

(** The handles a render pass appends for the tokens of a block. *)
Definition mentionInfos (tokens : list Token) : list str :=
  List.map info (filter isMention tokens).

Definition blockInfos (blockToken : BlockToken) : list str :=
  if (btype blockToken =? "inline")%string
  then match children blockToken with
       | Some cs => mentionInfos cs
       | None => []
       end
  else [].

(** The environment after the handles [l] are appended to its mentions
    list, one by one. *)
Definition appendMentions (env : Env) (l : list str) : Env :=
  match l, env with
  | [], _ => env
  | _, EnvOther => EnvOther
  | _, EnvObject mentions props =>
      EnvObject (Some (match mentions with
                       | None => []
                       | Some old => old
                       end ++ l)) props
  end.

(** Two patterns of one shape whose classes agree on the code points of
    the subject. *)
Fixpoint sameOn (Input : str) (r r' : Regex) : Prop :=
  match r, r' with
  | RChar c, RChar c' => c = c'
  | RClass p, RClass q => Forall (fun ch => p ch = q ch) Input
  | RSeq r1 r2, RSeq r1' r2' => sameOn Input r1 r1' /\ sameOn Input r2 r2'
  | RRepeat r0 min max, RRepeat r0' min' max' =>
      sameOn Input r0 r0' /\ min = min' /\ max = max'
  | RGroup n r0, RGroup n' r0' => n = n' /\ sameOn Input r0 r0'
  | _, _ => False
  end.

Section Notions.

Context {host : Host}.

(** The children of a block as the scanner visits them: each with the
    two counters as they read once the child is counted. *)
Fixpoint visits (depth : Z * Z) (children : list Token)
  : list (Z * Z * Token) :=
  match children with
  | [] => []
  | token :: rest =>
      let d := countDepth depth token in
      (fst d, snd d, token) :: visits d rest
  end.

(** How many tokens of a list are raw markup that opens an anchor, and
    how many are raw markup that closes one. *)
Definition rawOpens (ts : list Token) : Z :=
  Z.of_nat (length (filter (fun t =>
    (type t =? "html_inline")%string && isLinkOpen (content t)) ts)).
Definition rawCloses (ts : list Token) : Z :=
  Z.of_nat (length (filter (fun t =>
    (type t =? "html_inline")%string && negb (isLinkOpen (content t))
    && isLinkClose (content t)) ts)).

(** What the scanner puts in the place of a visited child. *)
Definition replacement (state : StateCore)
  (options : option PluginOptions) (v : Z * Z * Token) : list Token :=
  let '(linkDepth, htmlLinkDepth, token) := v in
  if keepsToken linkDepth htmlLinkDepth token then [token]
  else splitTokens token state options.

(** The token [t] stands for the piece [piece] of the text [s]: a text
    token holds the piece itself; a mention token stands for a match of
    the pattern and holds its completed handle. *)
Definition covers (state : StateCore) (options : option PluginOptions)
  (s : str) (piece : str) (t : Token) : Prop :=
  (type t = "text"%string /\ content t = piece)
  \/ (type t = "mention"%string
      /\ exists m, In m (matchAll MENTION_PATTERN s)
                   /\ piece = whole m
                   /\ completeHandle state options m = Some (info t)).

(** The markup of a render pass, token by token. *)
Definition tokenHtml (tokens : list Token) (i : nat) : str :=
  match nth_error tokens i with
  | Some token =>
      if isMention token
      then js "<a " ++ renderAttrs token ++ js ">" ++ content token
             ++ js "</a>"
      else inlineRule tokens (Z.of_nat i)
  | None => []
  end.

Definition inlineHtml (tokens : list Token) : str :=
  flat_map (tokenHtml tokens) (seq 0 (length tokens)).

Definition blockHtml (blocks : list BlockToken) (i : nat) : str :=
  match nth_error blocks i with
  | Some blockToken =>
      if (btype blockToken =? "inline")%string
      then inlineHtml match children blockToken with
                      | Some cs => cs
                      | None => []
                      end
      else blockRule blocks (Z.of_nat i)
  | None => []
  end.

Definition documentHtml (blocks : list BlockToken) : str :=
  flat_map (blockHtml blocks) (seq 0 (length blocks)).

End Notions.

(** *** Notions of the proofs *)

(** A matcher that succeeds has called its continuation, with success, on
    a state at least [k] code points further and still inside the
    subject. *)
Definition reaches (Input : str) (k : nat) (m : Matcher) : Prop :=
  forall x c z,
    endIndex x <= length Input -> m x c = Some z ->
    exists y, c y = Some z
              /\ endIndex x + k <= endIndex y
              /\ endIndex y <= length Input.

(** Two continuations that agree from the offset [n] on, inside the
    subject. *)
Definition agreeFrom (Input : str) (n : nat) (c c' : Continuation) : Prop :=
  forall y, n <= endIndex y -> endIndex y <= length Input -> c y = c' y.

(** A matcher looks at its continuation only on states that are not
    behind its own and lie inside the subject. *)
Definition local (Input : str) (m : Matcher) : Prop :=
  forall x c c',
    endIndex x <= length Input -> agreeFrom Input (endIndex x) c c' ->
    m x c = m x c'.

(** States and matches moved [k] code points to the right. *)
Definition shiftRange (k : nat) (se : nat * nat) : nat * nat :=
  (k + fst se, k + snd se).

Definition shiftState (k : nat) (x : MatchState) : MatchState :=
  {| endIndex := k + endIndex x;
     captures := List.map (option_map (shiftRange k)) (captures x) |}.

Definition shiftMatch (k : nat) (m : RegExpMatch) : RegExpMatch :=
  {| index := k + index m; whole := whole m; group1 := group1 m |}.

(** [c'] does on the states moved by the length of [pre] what [c] does on
    the states themselves. *)
Definition shifted (pre : str) (c' c : Continuation) : Prop :=
  forall y, c' (shiftState (length pre) y)
            = option_map (shiftState (length pre)) (c y).

(** The invariant of the splitter's loop: the tokens pushed so far stand,
    piece by piece, for the text before [pos]; no piece is empty and every
    token has the level [lvl]. *)
Definition piecesOk {host : Host} (state : StateCore)
  (options : option PluginOptions) (s : str) (lvl : Z)
  (acc : nat * list Token) (pieces : list str) : Prop :=
  fst acc <= length s
  /\ concat pieces = firstn (fst acc) s
  /\ Forall2 (covers state options s) pieces (snd acc)
  /\ Forall (fun p => p <> []) pieces
  /\ Forall (fun t => level t = lvl) (snd acc).

(** Tokens of the host, for the examples. *)
Definition htmlToken (markup : str) : Token :=
  set_content (newToken "html_inline" "" 0) markup.
Definition linkOpen : Token := newToken "link_open" "a" 1.
Definition linkClose : Token := newToken "link_close" "a" (-1).

(** The block tokens markdown-it makes of a paragraph. *)
Definition paragraph (inline : list Token) : list BlockToken :=
  [ mkBlock "paragraph_open" None;
    mkBlock "inline" (Some inline);
    mkBlock "paragraph_close" None ].

(** The mention token of the handle [@a@b.com] with the default link
    target, labelled [lbl]. *)
Definition acctToken (lbl : str) : Token :=
  {| type := "mention"; tag := ""; nesting := 0;
     attrs := Some [(js "href", js "acct:@a@b.com")];
     level := 0; content := lbl; info := js "@a@b.com" |}.

(** *** Notions of the further properties *)

(** A token the scanner neither splits nor makes: every token but the
    text tokens and the mention tokens. *)
Definition structural (t : Token) : bool :=
  negb (isText t) && negb (isMention t).

(** The words of a pattern: what a match of it may consist of. *)
Fixpoint Lang (r : Regex) (w : str) : Prop :=
  match r with
  | RChar c => w = [c]
  | RClass p => exists c, w = [c] /\ p c = true
  | RSeq r1 r2 => exists w1 w2, w = w1 ++ w2 /\ Lang r1 w1 /\ Lang r2 w2
  | RRepeat r0 min max =>
      exists ws, w = concat ws
                 /\ min <= length ws
                 /\ (forall M, max = Some M -> length ws <= M)
                 /\ Forall (Lang r0) ws
  | RGroup _ r0 => Lang r0 w
  end.

(** A pattern whose quantifiers have their bounds in order. *)
Fixpoint wellFormed (r : Regex) : bool :=
  match r with
  | RChar _ | RClass _ => true
  | RSeq r1 r2 => wellFormed r1 && wellFormed r2
  | RRepeat r0 min max =>
      wellFormed r0
      && match max with
         | Some M => min <=? M
         | None => true
         end
  | RGroup _ r0 => wellFormed r0
  end.

(** [k] rounds of [R], the captures of [parens] cleared before each. *)
Fixpoint iter (R : MatchState -> MatchState -> Prop) (parens : list nat)
  (k : nat) (x y : MatchState) : Prop :=
  match k with
  | 0 => y = x
  | S k' => exists y1, R (clearCaptures parens x) y1 /\ iter R parens k' y1 y
  end.

(** The pattern [r] leads from the state [x] to the state [y]. *)
Fixpoint Run (Input : str) (r : Regex) (x y : MatchState) : Prop :=
  match r with
  | RChar ch =>
      nth_error Input (endIndex x) = Some ch
      /\ y = {| endIndex := S (endIndex x); captures := captures x |}
  | RClass p =>
      exists ch, nth_error Input (endIndex x) = Some ch
                 /\ p ch = true
                 /\ y = {| endIndex := S (endIndex x);
                           captures := captures x |}
  | RSeq r1 r2 => exists y1, Run Input r1 x y1 /\ Run Input r2 y1 y
  | RRepeat r0 min max =>
      exists k, min <= k
                /\ (forall M, max = Some M -> k <= M)
                /\ iter (Run Input r0) (groupsOf r0) k x y
  | RGroup n r0 =>
      exists y0, Run Input r0 x y0
                 /\ y = {| endIndex := endIndex y0;
                           captures := setCapture n
                                         (Some (endIndex x, endIndex y0))
                                         (captures y0) |}
  end.

Section FurtherNotions.

Context {host : Host}.

(** A label of a domain: a letter or number, then letters, numbers, [_]
    or [-]. *)
Definition isLabel (l : str) : Prop :=
  exists c rest, l = c :: rest
                 /\ letterOrNumber c = true
                 /\ forallb labelChar rest = true.

(** The domain part of a full handle: [@], one or more labels each
    followed by a dot, and a last label of two or more letters or
    numbers. *)
Definition isDomainPart (g : str) : Prop :=
  exists labels tld,
    g = AT :: concat (List.map (fun l => l ++ [DOT]) labels) ++ tld
    /\ labels <> []
    /\ Forall isLabel labels
    /\ 2 <= length tld
    /\ forallb letterOrNumber tld = true.






End FurtherNotions.

(** * Properties *)

(** ** Strings *)

Lemma str_eqb_eq (a b : str) : str_eqb a b = true <-> a = b.
Proof.
  revert b; induction a as [|x a IH]; intros [|y b]; simpl;
    try (split; [discriminate | discriminate]); try tauto.
  rewrite andb_true_iff, N.eqb_eq, IH.
  split; [intros [-> ->]; reflexivity | intros E; inversion E; auto].
Qed.

Lemma substring_cut (s : str) (a b : nat) :
  a <= b -> b <= length s -> substring s a b = firstn (b - a) (skipn a s).
Proof.
  intros Hab Hb. unfold substring.
  rewrite (Nat.min_l a) by lia. rewrite (Nat.min_l b) by lia.
  rewrite Nat.min_l, Nat.max_r by lia. reflexivity.
Qed.

Lemma substring_length (s : str) (a b : nat) :
  a <= b -> b <= length s -> length (substring s a b) = b - a.
Proof.
  intros Hab Hb. rewrite substring_cut by assumption.
  rewrite length_firstn, length_skipn. lia.
Qed.

Lemma firstn_step (s : str) (a b : nat) :
  a <= b -> b <= length s -> firstn a s ++ substring s a b = firstn b s.
Proof.
  intros Hab Hb. rewrite substring_cut by assumption.
  replace b with (a + (b - a)) at 2 by lia.
  rewrite <- (firstn_skipn a s) at 3.
  rewrite firstn_app, length_firstn, Nat.min_l by lia.
  rewrite firstn_firstn, Nat.min_r by lia.
  replace (a + (b - a) - a) with (b - a) by lia.
  reflexivity.
Qed.

Lemma firstn_rest (s : str) (a : nat) :
  a <= length s -> firstn a s ++ substringFrom s a = s.
Proof.
  intros Ha. unfold substringFrom. rewrite firstn_step by lia.
  apply firstn_all.
Qed.

Lemma substringFrom_length (s : str) (a : nat) :
  a <= length s -> length (substringFrom s a) = length s - a.
Proof. intros Ha. apply substring_length; lia. Qed.


(** ** The engine *)

Section EngineFacts.

Variable Input : str.

Lemma reaches_weaken (k : nat) (m : Matcher) :
  reaches Input k m -> reaches Input 0 m.
Proof.
  intros Hm x c z Hx E. destruct (Hm x c z Hx E) as (y & Hy & H1 & H2).
  exists y. repeat split; [assumption | lia | assumption].
Qed.

Lemma CharacterSetMatcher_reaches (p : char -> bool) :
  reaches Input 1 (CharacterSetMatcher Input p).
Proof.
  intros x c z Hx E. unfold CharacterSetMatcher in E.
  destruct (nth_error Input (endIndex x)) as [ch|] eqn:Hn; [|discriminate].
  destruct (p ch); [|discriminate].
  assert (endIndex x < length Input)
    by (apply nth_error_Some; congruence).
  eexists; split; [exact E|]. simpl. lia.
Qed.

Lemma RepeatMatcher_reaches (m : Matcher) :
  reaches Input 0 m ->
  forall fuel min max parens,
    reaches Input 0 (RepeatMatcher m fuel min max parens).
Proof.
  intros Hm fuel.
  induction fuel as [|fuel IH]; intros min max parens x c z Hx E.
  - simpl in E. destruct max as [[|k]|]; try discriminate.
    exists x. repeat split; [assumption | lia | assumption].
  - simpl in E.
    assert (Hd : forall w,
      m (clearCaptures parens x)
        (fun y =>
           if (min =? 0) && (endIndex y =? endIndex x) then None
           else RepeatMatcher m fuel (Nat.pred min)
                  (option_map Nat.pred max) parens y c) = Some w ->
      exists y, c y = Some w /\ endIndex x + 0 <= endIndex y
                /\ endIndex y <= length Input).
    { intros w Ew. apply Hm in Ew; [|exact Hx].
      destruct Ew as (y & Ey & H1 & H2). simpl in H1.
      destruct ((min =? 0) && (endIndex y =? endIndex x)); [discriminate|].
      apply IH in Ey; [|exact H2].
      destruct Ey as (y' & Ey' & H3 & H4).
      exists y'. repeat split; [assumption | lia | assumption]. }
    destruct max as [[|k]|].
    + exists x. repeat split; [assumption | lia | assumption].
    + destruct (negb (min =? 0)); [apply Hd; exact E|].
      match type of E with
      | match ?t with _ => _ end = _ => destruct t as [w|] eqn:Em
      end.
      * inversion E; subst w. apply Hd. reflexivity.
      * exists x. repeat split; [assumption | lia | assumption].
    + destruct (negb (min =? 0)); [apply Hd; exact E|].
      match type of E with
      | match ?t with _ => _ end = _ => destruct t as [w|] eqn:Em
      end.
      * inversion E; subst w. apply Hd. reflexivity.
      * exists x. repeat split; [assumption | lia | assumption].
Qed.

Lemma compile_reaches (r : Regex) : reaches Input (minLen r) (compile Input r).
Proof.
  induction r as [ch|p|r1 IH1 r2 IH2|r IH min max|n r IH].
  - apply CharacterSetMatcher_reaches.
  - apply CharacterSetMatcher_reaches.
  - intros x c z Hx E. simpl in E.
    destruct (IH1 x _ z Hx E) as (y1 & E1 & H1 & H2).
    destruct (IH2 y1 c z H2 E1) as (y2 & E2 & H3 & H4).
    exists y2. simpl. repeat split; [assumption | lia | assumption].
  - intros x c z Hx E.
    exact (RepeatMatcher_reaches _ (reaches_weaken _ _ IH)
             (S (min + (length Input - endIndex x))) min max (groupsOf r)
             x c z Hx E).
  - intros x c z Hx E. simpl in E.
    destruct (IH x _ z Hx E) as (y & Ey & H1 & H2).
    eexists; split; [exact Ey|]. simpl. lia.
Qed.

(** A successful attempt at [i] ends inside the subject, at least
    [minLen r] code points after [i]. *)
Lemma matchAt_bounds (r : Regex) (i : nat) (y : MatchState) :
  i <= length Input -> matchAt Input r i = Some y ->
  i + minLen r <= endIndex y /\ endIndex y <= length Input.
Proof.
  intros Hi E. unfold matchAt in E.
  apply compile_reaches in E; [|exact Hi].
  destruct E as (y' & Ey & H1 & H2). inversion Ey; subst y'.
  simpl in H1. auto.
Qed.

(** *** The fuel of [RepeatMatcher] is enough *)

Lemma CharacterSetMatcher_local (p : char -> bool) :
  local Input (CharacterSetMatcher Input p).
Proof.
  intros x c c' Hx Hc. unfold CharacterSetMatcher.
  destruct (nth_error Input (endIndex x)) as [ch|] eqn:Hn; [|reflexivity].
  assert (endIndex x < length Input)
    by (apply nth_error_Some; congruence).
  destruct (p ch); [|reflexivity]. apply Hc; simpl; lia.
Qed.

Lemma RepeatMatcher_steps (m : Matcher) :
  local Input m ->
  forall fuel fuel' min max parens x c c',
    endIndex x <= length Input ->
    min + (length Input - endIndex x) < fuel ->
    min + (length Input - endIndex x) < fuel' ->
    agreeFrom Input (endIndex x) c c' ->
    RepeatMatcher m fuel min max parens x c
    = RepeatMatcher m fuel' min max parens x c'.
Proof.
  intros Hm fuel.
  induction fuel as [|fuel IH];
    intros fuel' min max parens x c c' Hx Hf Hf' Hc; [lia|].
  destruct fuel' as [|fuel']; [lia|].
  assert (Hcx : c x = c' x) by (apply Hc; lia).
  assert (Hd :
    m (clearCaptures parens x)
      (fun y =>
         if (min =? 0) && (endIndex y =? endIndex x) then None
         else RepeatMatcher m fuel (Nat.pred min)
                (option_map Nat.pred max) parens y c)
    = m (clearCaptures parens x)
        (fun y =>
           if (min =? 0) && (endIndex y =? endIndex x) then None
           else RepeatMatcher m fuel' (Nat.pred min)
                  (option_map Nat.pred max) parens y c')).
  { apply Hm; [exact Hx|]. intros y H1 H2. simpl in H1.
    destruct (min =? 0) eqn:Emin; simpl.
    - apply Nat.eqb_eq in Emin. subst min.
      destruct (endIndex y =? endIndex x) eqn:Ey; [reflexivity|].
      apply Nat.eqb_neq in Ey.
      apply IH; simpl; try lia. intros w H3 H4. apply Hc; lia.
    - apply Nat.eqb_neq in Emin.
      apply IH; try lia. intros w H3 H4. apply Hc; lia. }
  simpl. destruct max as [[|k]|]; [exact Hcx| |];
    rewrite Hd, Hcx; reflexivity.
Qed.

Lemma RepeatMatcher_local (m : Matcher) :
  local Input m ->
  forall fuel min max parens x,
    min + (length Input - endIndex x) < fuel ->
    forall c c',
      endIndex x <= length Input -> agreeFrom Input (endIndex x) c c' ->
      RepeatMatcher m fuel min max parens x c
      = RepeatMatcher m fuel min max parens x c'.
Proof.
  intros Hm fuel min max parens x Hf c c' Hx Hc.
  apply RepeatMatcher_steps; assumption.
Qed.

Lemma compile_local (r : Regex) : local Input (compile Input r).
Proof.
  induction r as [ch|p|r1 IH1 r2 IH2|r IH min max|n r IH].
  - apply CharacterSetMatcher_local.
  - apply CharacterSetMatcher_local.
  - intros x c c' Hx Hc. simpl. apply IH1; [exact Hx|].
    intros y H1 H2. apply IH2; [exact H2|].
    intros w H3 H4. apply Hc; lia.
  - intros x c c' Hx Hc.
    exact (RepeatMatcher_local _ IH (S (min + (length Input - endIndex x)))
             min max (groupsOf r) x (Nat.lt_succ_diag_r _) c c' Hx Hc).
  - intros x c c' Hx Hc. simpl. apply IH; [exact Hx|].
    intros y H1 H2. apply Hc; simpl; lia.
Qed.

(** Every run of a quantifier from inside the subject gives the same
    result with the fuel [compile] supplies as with any larger fuel: the
    bound is never met. *)
Lemma RepeatMatcher_fuel (r : Regex) (min : nat) (max : option nat)
  (x : MatchState) (c : Continuation) (extra : nat) :
  endIndex x <= length Input ->
  RepeatMatcher (compile Input r)
    (S (min + (length Input - endIndex x)) + extra) min max (groupsOf r) x c
  = compile Input (RRepeat r min max) x c.
Proof.
  intros Hx.
  change (compile Input (RRepeat r min max) x c)
    with (RepeatMatcher (compile Input r)
            (S (min + (length Input - endIndex x))) min max (groupsOf r)
            x c).
  apply RepeatMatcher_steps; try lia.
  - apply compile_local.
  - intros y _ _. reflexivity.
Qed.

End EngineFacts.

(** *** Patterns that agree on the subject match alike *)

Lemma sameOn_groups (Input : str) (r r' : Regex) :
  sameOn Input r r' -> groupsOf r = groupsOf r'.
Proof.
  revert r'. induction r as [ch|p|r1 IH1 r2 IH2|r IH min max|n r IH];
    intros [ch'|p'|r1' r2'|r' min' max'|n' r']; simpl; try tauto.
  - intros [H1 H2]. f_equal; auto.
  - intros (H & _ & _). auto.
  - intros [-> H]. f_equal; auto.
Qed.

Lemma CharacterSetMatcher_ext (Input : str) (p q : char -> bool) :
  Forall (fun ch => p ch = q ch) Input ->
  forall x c c', (forall y, c y = c' y) ->
    CharacterSetMatcher Input p x c = CharacterSetMatcher Input q x c'.
Proof.
  intros Hpq x c c' Hc. unfold CharacterSetMatcher.
  destruct (nth_error Input (endIndex x)) as [ch|] eqn:Hn; [|reflexivity].
  rewrite Forall_forall in Hpq.
  rewrite (Hpq ch) by (eapply nth_error_In; exact Hn).
  destruct (q ch); [apply Hc | reflexivity].
Qed.

Lemma RepeatMatcher_ext (m m' : Matcher) :
  (forall x c c', (forall y, c y = c' y) -> m x c = m' x c') ->
  forall fuel min max parens x c c',
    (forall y, c y = c' y) ->
    RepeatMatcher m fuel min max parens x c
    = RepeatMatcher m' fuel min max parens x c'.
Proof.
  intros Hm fuel. induction fuel as [|fuel IH]; intros min max parens x c c' Hc.
  - simpl. destruct max as [[|k]|]; auto.
  - assert (Hd :
      m (clearCaptures parens x)
        (fun y =>
           if (min =? 0) && (endIndex y =? endIndex x) then None
           else RepeatMatcher m fuel (Nat.pred min)
                  (option_map Nat.pred max) parens y c)
      = m' (clearCaptures parens x)
          (fun y =>
             if (min =? 0) && (endIndex y =? endIndex x) then None
             else RepeatMatcher m' fuel (Nat.pred min)
                    (option_map Nat.pred max) parens y c')).
    { apply Hm. intros y.
      destruct ((min =? 0) && (endIndex y =? endIndex x)); [reflexivity|].
      apply IH. exact Hc. }
    simpl. destruct max as [[|k]|]; [apply Hc| |];
      rewrite Hd, (Hc x); reflexivity.
Qed.

Lemma compile_sameOn (Input : str) (r r' : Regex) :
  sameOn Input r r' ->
  forall x c c', (forall y, c y = c' y) ->
    compile Input r x c = compile Input r' x c'.
Proof.
  revert r'. induction r as [ch|p|r1 IH1 r2 IH2|r IH min max|n r IH];
    intros [ch'|p'|r1' r2'|r' min' max'|n' r']; simpl sameOn; try tauto.
  - intros <- x c c' Hc. simpl.
    apply CharacterSetMatcher_ext; [|exact Hc].
    apply Forall_forall. reflexivity.
  - intros Hpq x c c' Hc. simpl.
    apply CharacterSetMatcher_ext; assumption.
  - intros [H1 H2] x c c' Hc. simpl.
    apply IH1; [exact H1|]. intros y. apply IH2; assumption.
  - intros (H & <- & <-) x c c' Hc.
    change (RepeatMatcher (compile Input r)
              (S (min + (length Input - endIndex x))) min max (groupsOf r)
              x c
            = RepeatMatcher (compile Input r')
                (S (min + (length Input - endIndex x))) min max (groupsOf r')
                x c').
    rewrite <- (sameOn_groups _ _ _ H).
    apply RepeatMatcher_ext; [|exact Hc].
    intros; apply IH; assumption.
  - intros [<- H] x c c' Hc. simpl.
    apply IH; [exact H|]. intros y. apply Hc.
Qed.

Lemma matchAll_sameOn (Input : str) (r r' : Regex) :
  sameOn Input r r' -> matchAll r Input = matchAll r' Input.
Proof.
  intros H. unfold matchAll.
  assert (G : forall starts lastIndex,
             scan r Input starts lastIndex = scan r' Input starts lastIndex);
    [|apply G].
  intros starts.
  induction starts as [|i starts IH]; intros lastIndex; simpl; [reflexivity|].
  assert (E : matchAt Input r i = matchAt Input r' i).
  { unfold matchAt. rewrite <- (sameOn_groups _ _ _ H).
    apply compile_sameOn; [exact H | reflexivity]. }
  rewrite E, !IH.
  destruct (matchAt Input r' i); [rewrite IH|]; reflexivity.
Qed.

(** *** The matches of [matchAll] lie in the subject, in order *)

Lemma matchesFrom_weaken (s : str) (ms : list RegExpMatch) (p q : nat) :
  q <= p -> matchesFrom s p ms -> matchesFrom s q ms.
Proof.
  destruct ms as [|m ms]; simpl; [tauto|].
  intros Hq (H1 & H2 & H3 & H4). repeat split; try assumption. lia.
Qed.

Lemma toMatch_whole (s : str) (i : nat) (y : MatchState) :
  i <= endIndex y -> endIndex y <= length s ->
  index (toMatch s i y) + length (whole (toMatch s i y)) = endIndex y.
Proof.
  intros H1 H2. simpl. rewrite substring_length by assumption. lia.
Qed.

Lemma scan_matchesFrom (r : Regex) (s : str) (starts : list nat) :
  Forall (fun i => i <= length s) starts ->
  forall lastIndex, matchesFrom s lastIndex (scan r s starts lastIndex).
Proof.
  induction 1 as [|i starts Hi Hs IH]; intros lastIndex; simpl; [exact I|].
  destruct (i <? lastIndex) eqn:Hlt; [apply IH|].
  apply Nat.ltb_ge in Hlt.
  destruct (matchAt s r i) as [y|] eqn:Hm.
  - destruct (matchAt_bounds s r i y Hi Hm) as [H1 H2].
    assert (H0 : i <= endIndex y) by lia.
    pose proof (toMatch_whole s i y H0 H2) as Hw.
    cbn [matchesFrom]. rewrite Hw.
    split; [exact Hlt|]. split; [exact H2|]. split; [reflexivity|].
    eapply matchesFrom_weaken; [|apply IH].
    destruct (endIndex y =? i); lia.
  - eapply matchesFrom_weaken; [|apply IH]. lia.
Qed.

Lemma matchAll_matchesFrom (r : Regex) (s : str) :
  matchesFrom s 0 (matchAll r s).
Proof.
  apply scan_matchesFrom. apply Forall_forall. intros i Hi.
  apply in_seq in Hi. lia.
Qed.

(** A match of a pattern that consumes something is not empty. *)
Lemma scan_whole_length (r : Regex) (s : str) (starts : list nat) :
  Forall (fun i => i <= length s) starts ->
  forall lastIndex m,
    In m (scan r s starts lastIndex) -> minLen r <= length (whole m).
Proof.
  induction 1 as [|i starts Hi Hs IH]; intros lastIndex m; simpl; [tauto|].
  destruct (i <? lastIndex); [apply IH|].
  destruct (matchAt s r i) as [y|] eqn:Hm; [|apply IH].
  intros [<-|Hin]; [|eapply IH; exact Hin].
  destruct (matchAt_bounds s r i y Hi Hm) as [H1 H2].
  simpl. rewrite substring_length by lia. lia.
Qed.

Lemma matchAll_whole_length (r : Regex) (s : str) (m : RegExpMatch) :
  In m (matchAll r s) -> minLen r <= length (whole m).
Proof.
  apply scan_whole_length. apply Forall_forall. intros i Hi.
  apply in_seq in Hi. lia.
Qed.

(** ** The splitter *)

Section SplitterFacts.

Context {host : Host}.
Variables (state : StateCore) (options : option PluginOptions).
Variables (s : str) (lvl : Z).

Lemma piecesOk_push (acc : nat * list Token) (pieces : list str)
  (q : nat) (piece : str) (t : Token) :
  piecesOk state options s lvl acc pieces ->
  fst acc <= q -> q <= length s ->
  piece = substring s (fst acc) q -> piece <> [] ->
  covers state options s piece t -> level t = lvl ->
  piecesOk state options s lvl (q, snd acc ++ [t]) (pieces ++ [piece]).
Proof.
  intros (H1 & H2 & H3 & H4 & H5) Hq Hq' Hp Hne Hc Hl.
  unfold piecesOk; simpl. split; [exact Hq'|]. split.
  - rewrite concat_app, H2. simpl. rewrite app_nil_r, Hp.
    apply firstn_step; assumption.
  - split; [apply Forall2_app; auto|].
    split; apply Forall_app; auto.
Qed.

Lemma substring_nonempty (a b : nat) :
  a < b -> b <= length s -> substring s a b <> [].
Proof.
  intros Hab Hb E. apply (f_equal (@length char)) in E.
  rewrite substring_length in E by lia. simpl in E. lia.
Qed.

Lemma pushMatch_pieces (acc : nat * list Token) (pieces : list str)
  (m : RegExpMatch) (handle : str) :
  piecesOk state options s lvl acc pieces ->
  fst acc <= index m ->
  index m + length (whole m) <= length s ->
  whole m = substring s (index m) (index m + length (whole m)) ->
  whole m <> [] ->
  In m (matchAll MENTION_PATTERN s) ->
  completeHandle state options m = Some handle ->
  exists pieces',
    piecesOk state options s lvl
      (pushMatch s lvl state options acc m handle) pieces'
    /\ fst (pushMatch s lvl state options acc m handle)
       = index m + length (whole m).
Proof.
  intros Hok Hpos Hend Hw Hne Hin Hh. destruct acc as [pos tokens].
  simpl in Hpos.
  (* the text before the match *)
  assert (Hb : exists pieces0,
    piecesOk state options s lvl
      (index m, pushBefore s lvl pos tokens m) pieces0).
  { unfold pushBefore. destruct (pos <? index m) eqn:Hlt.
    - apply Nat.ltb_lt in Hlt. eexists.
      apply (piecesOk_push (pos, tokens) pieces (index m)
               (substring s pos (index m))); auto; try lia.
      + apply substring_nonempty; lia.
      + left. split; reflexivity.
    - apply Nat.ltb_ge in Hlt. assert (pos = index m) by lia. subst pos.
      exists pieces. exact Hok. }
  destruct Hb as (pieces0 & Hok0).
  unfold pushMatch.
  set (tokens0 := pushBefore s lvl pos tokens m) in *.
  assert (Htext : piecesOk state options s lvl (index m + length (whole m),
                            tokens0 ++ [textToken (whole m) lvl])
                    (pieces0 ++ [whole m])).
  { apply (piecesOk_push (index m, tokens0) pieces0); simpl; auto; try lia.
    left. split; reflexivity. }
  assert (Hment : forall href,
            piecesOk state options s lvl (index m + length (whole m),
                      tokens0 ++ [mentionToken state options lvl handle href])
              (pieces0 ++ [whole m])).
  { intros href.
    apply (piecesOk_push (index m, tokens0) pieces0); simpl; auto; try lia.
    right. split; [reflexivity|]. exists m. auto. }
  exists (pieces0 ++ [whole m]).
  destruct (resolveHref state options handle);
    destruct (opt options link); split; auto.
Qed.

Lemma loop_pieces (ms : list RegExpMatch) :
  forall (p : nat) (acc : nat * list Token) (pieces : list str),
    matchesFrom s p ms ->
    Forall (fun m => In m (matchAll MENTION_PATTERN s)) ms ->
    fst acc <= p ->
    piecesOk state options s lvl acc pieces ->
    exists pieces',
      piecesOk state options s lvl
        (fold_left (loopBody s lvl state options) ms acc) pieces'.
Proof.
  induction ms as [|m ms IH]; intros p acc pieces Hms Hall Hp Hok; simpl.
  - exists pieces. exact Hok.
  - destruct Hms as (H1 & H2 & H3 & H4).
    inversion Hall as [|? ? Hin Hall']; subst.
    unfold loopBody at 2.
    destruct (completeHandle state options m) as [handle|] eqn:Hh.
    + assert (Hne : whole m <> []).
      { pose proof (matchAll_whole_length _ _ _ Hin) as Hl.
        simpl in Hl. destruct (whole m); [simpl in Hl; lia | discriminate]. }
      destruct (pushMatch_pieces acc pieces m handle Hok)
        as (pieces' & Hok' & Hfst); auto; try lia.
      apply (IH (index m + length (whole m)) _ pieces'); auto. lia.
    + apply (IH (index m + length (whole m)) acc pieces); auto. lia.
Qed.

(** The tokens of [splitTokens] stand, piece by piece and in order, for
    the whole text; no piece is empty and every token has the level of the
    token that was split. *)
Lemma splitTokens_pieces (token : Token) :
  content token = s -> level token = lvl ->
  exists pieces,
    concat pieces = s
    /\ Forall2 (covers state options s) pieces
         (splitTokens token state options)
    /\ Forall (fun p => p <> []) pieces
    /\ Forall (fun t => level t = lvl) (splitTokens token state options).
Proof.
  intros Hs Hl. unfold splitTokens. rewrite Hs, Hl.
  destruct (loop_pieces (matchAll MENTION_PATTERN s) 0 (0, []) [])
    as (pieces & Hok).
  - apply matchAll_matchesFrom.
  - apply Forall_forall. auto.
  - simpl. lia.
  - unfold piecesOk; simpl. repeat split; auto. lia.
  - destruct (fold_left (loopBody s lvl state options)
                (matchAll MENTION_PATTERN s) (0, [])) as [pos tokens].
    destruct (pos <? length s) eqn:Hlt.
    + apply Nat.ltb_lt in Hlt.
      assert (Hok' : piecesOk state options s lvl (length s,
                               tokens ++ [textToken (substringFrom s pos) lvl])
                       (pieces ++ [substringFrom s pos])).
      { apply (piecesOk_push (pos, tokens) pieces); simpl; auto; try lia.
        - apply substring_nonempty; lia.
        - left. split; reflexivity. }
      destruct Hok' as (_ & H2 & H3 & H4 & H5). simpl in *.
      exists (pieces ++ [substringFrom s pos]).
      rewrite firstn_all in H2. auto.
    + apply Nat.ltb_ge in Hlt.
      destruct Hok as (H1 & H2 & H3 & H4 & H5). simpl in *.
      exists pieces. rewrite firstn_all2 in H2 by lia. auto.
Qed.

End SplitterFacts.

Section SplitterClaims.

Context {host : Host}.

Lemma substringFrom_0 (s : str) : substringFrom s 0 = s.
Proof.
  unfold substringFrom. rewrite substring_cut by lia.
  rewrite Nat.sub_0_r. apply firstn_all.
Qed.

Lemma covers_text_nonempty (state : StateCore)
  (options : option PluginOptions) (s : str)
  (pieces : list str) (ts : list Token) :
  Forall2 (covers state options s) pieces ts ->
  Forall (fun p => p <> []) pieces ->
  Forall (fun t => type t = "text"%string -> content t <> []) ts.
Proof.
  induction 1 as [|p t pieces ts Hc _ IH]; intros Hne; constructor.
  - inversion Hne; subst. intros Ht.
    destruct Hc as [[_ ->]|[Hm _]]; [assumption | congruence].
  - apply IH. inversion Hne; assumption.
Qed.


(** C9 (amended).  A text token whose content is not empty and has no
    match of the pattern is replaced by a single text token with its
    content and its level; one whose content is empty (it has no match
    either) is replaced by nothing.  In general the replacement tokens
    stand for consecutive pieces of the content, none of them empty, so
    the text between and around the matches is kept in text tokens of its
    own and no empty token follows the last match; every replacement token
    has the level of the token that was split. *)
Theorem splitTokens_boundaries (token : Token) (state : StateCore)
  (options : option PluginOptions) :
  (matchAll MENTION_PATTERN (content token) = [] ->
   splitTokens token state options
   = match content token with
     | [] => []
     | _ :: _ =>
         [ {| type := "text"; tag := ""; nesting := 0; attrs := None;
              level := level token; content := content token;
              info := [] |} ]
     end)
  /\ (exists pieces : list str,
        concat pieces = content token
        /\ Forall2 (covers state options (content token)) pieces
             (splitTokens token state options)
        /\ Forall (fun p => p <> []) pieces)
  /\ Forall (fun t => level t = level token
                      /\ (type t = "text"%string -> content t <> []))
       (splitTokens token state options).
Proof.
  destruct (splitTokens_pieces state options (content token) (level token)
              token eq_refl eq_refl) as (pieces & H1 & H2 & H3 & H4).
  split; [|split].
  - intros Hnone. unfold splitTokens. rewrite Hnone. cbn [fold_left].
    destruct (content token) as [|c s] eqn:Hs; [reflexivity|].
    change (0 <? length (c :: s)) with true. cbv iota.
    rewrite substringFrom_0. reflexivity.
  - exists pieces. auto.
  - pose proof (covers_text_nonempty _ _ _ _ _ H2 H3) as H5.
    rewrite Forall_forall in *. intros t Ht. split; auto.
Qed.

End SplitterClaims.

(** ** One match *)

Lemma str_eqb_refl (a : str) : str_eqb a a = true.
Proof. apply str_eqb_eq. reflexivity. Qed.

Lemma getProperty_setProperty (r : JsRecord) (key value : str) :
  getProperty (setProperty r key value) key = Some value.
Proof.
  induction r as [|[k v] r IH]; simpl.
  - rewrite str_eqb_refl. reflexivity.
  - destruct (str_eqb k key) eqn:E; simpl; rewrite E; auto.
Qed.

Lemma setProperty_new (r : JsRecord) (key value : str) :
  getProperty r key = None -> setProperty r key value = r ++ [(key, value)].
Proof.
  induction r as [|[k v] r IH]; simpl; [reflexivity|].
  destruct (str_eqb k key); [discriminate|].
  intros H. rewrite IH by exact H. reflexivity.
Qed.

Lemma setProperty_old (pre post : JsRecord) (key old value : str) :
  getProperty pre key = None ->
  setProperty (pre ++ (key, old) :: post) key value
  = pre ++ (key, value) :: post.
Proof.
  induction pre as [|[k v] pre IH]; simpl.
  - rewrite str_eqb_refl. reflexivity.
  - destruct (str_eqb k key); [discriminate|].
    intros H. rewrite IH by exact H. reflexivity.
Qed.


Lemma getProperty_absent (r : JsRecord) (key : str) :
  ~ In key (List.map fst r) -> getProperty r key = None.
Proof.
  induction r as [|[k v] r IH]; simpl; [reflexivity|].
  intros Hn. destruct (str_eqb k key) eqn:E.
  - apply str_eqb_eq in E. tauto.
  - apply IH. tauto.
Qed.

Section MatchClaims.

Context {host : Host}.
Variables (text : str) (lvl : Z).
Variables (state : StateCore) (options : option PluginOptions).


(** Lines 113-120 on a match: with a domain of its own the handle is the
    matched text; without one it is the matched text, [@] and the domain
    the local-domain resolver returns for the matched text. *)
Lemma completeHandle_cases (m : RegExpMatch) (handle : str) :
  (group1 m <> None /\ handle = whole m)
  \/ (group1 m = None
      /\ exists f d, opt options localDomain = Some f
                     /\ f (whole m) (env state) = Some d
                     /\ handle = whole m ++ AT :: d) ->
  completeHandle state options m = Some handle.
Proof.
  unfold completeHandle. intros [[Hg ->]|(Hg & f & d & Hf & Hd & ->)].
  - destruct (group1 m); [reflexivity | congruence].
  - rewrite Hg, Hf, Hd. reflexivity.
Qed.


(** Lines 122-148: a link target for the handle, from the link resolver
    or, without a resolver, [acct:] and the handle. *)
Lemma pushMatch_converted (pos : nat) (tokens : list Token)
  (m : RegExpMatch) (handle target : str) :
  match opt options link with
  | None => target = js "acct:" ++ handle
  | Some g => g handle (env state) = Some target
  end ->
  pushMatch text lvl state options (pos, tokens) m handle
  = (index m + length (whole m),
     tokens
       ++ (if pos <? index m
           then [ {| type := "text"; tag := ""; nesting := 0;
                     attrs := None; level := lvl;
                     content := substring text pos (index m);
                     info := [] |} ]
           else [])
       ++ [ {| type := "mention"; tag := ""; nesting := 0;
               attrs :=
                 Some (setProperty
                         match opt options linkAttributes with
                         | Some a => a handle (env state)
                         | None => []
                         end (js "href") target);
               level := lvl;
               content :=
                 match opt options label with
                 | Some lab => lab handle (env state)
                 | None => toBareHandle handle (env state)
                 end;
               info := handle |} ]).
Proof.
  intros Ht. unfold pushMatch, resolveHref, pushBefore.
  destruct (opt options link) as [g|].
  - rewrite Ht. destruct (pos <? index m); [rewrite <- app_assoc|];
      reflexivity.
  - subst target. destruct (pos <? index m); [rewrite <- app_assoc|];
      reflexivity.
Qed.




(** C8 (amended).  For a match that is converted (its handle is completed
    and a link target is resolved for it: what the link resolver returns,
    or without a resolver [acct:] and the handle), the attributes of the
    mention token the loop pushes are the entries the link-attributes
    resolver returns for the handle (none when no resolver is configured)
    with [href] set to the link target: when the entries have no [href],
    they come first, as they are, and [href] comes last; when they have
    one, its value is replaced by the link target and it keeps its
    place. *)
Theorem mention_attributes (pos : nat) (tokens : list Token)
  (m : RegExpMatch) (handle target : str) :
  (group1 m <> None /\ handle = whole m)
  \/ (group1 m = None
      /\ exists f d, opt options localDomain = Some f
                     /\ f (whole m) (env state) = Some d
                     /\ handle = whole m ++ AT :: d) ->
  match opt options link with
  | None => target = js "acct:" ++ handle
  | Some g => g handle (env state) = Some target
  end ->
  (~ In (js "href")
        (List.map fst
           match opt options linkAttributes with
           | Some a => a handle (env state)
           | None => []
           end) ->
   loopBody text lvl state options (pos, tokens) m
   = (index m + length (whole m),
      tokens
        ++ (if pos <? index m
            then [ {| type := "text"; tag := ""; nesting := 0;
                      attrs := None; level := lvl;
                      content := substring text pos (index m);
                      info := [] |} ]
            else [])
        ++ [ {| type := "mention"; tag := ""; nesting := 0;
                attrs :=
                  Some (match opt options linkAttributes with
                        | Some a => a handle (env state)
                        | None => []
                        end ++ [(js "href", target)]);
                level := lvl;
                content :=
                  match opt options label with
                  | Some lab => lab handle (env state)
                  | None => toBareHandle handle (env state)
                  end;
                info := handle |} ]))
  /\ (forall pre old post,
        match opt options linkAttributes with
        | Some a => a handle (env state)
        | None => []
        end = pre ++ (js "href", old) :: post ->
        ~ In (js "href") (List.map fst pre) ->
        loopBody text lvl state options (pos, tokens) m
        = (index m + length (whole m),
           tokens
             ++ (if pos <? index m
                 then [ {| type := "text"; tag := ""; nesting := 0;
                           attrs := None; level := lvl;
                           content := substring text pos (index m);
                           info := [] |} ]
                 else [])
             ++ [ {| type := "mention"; tag := ""; nesting := 0;
                     attrs := Some (pre ++ (js "href", target) :: post);
                     level := lvl;
                     content :=
                       match opt options label with
                       | Some lab => lab handle (env state)
                       | None => toBareHandle handle (env state)
                       end;
                     info := handle |} ])).
Proof.
  intros Hh Ht. apply completeHandle_cases in Hh. unfold loopBody.
  rewrite Hh, (pushMatch_converted pos tokens m handle target Ht).
  split.
  - intros Hnew. rewrite setProperty_new by (apply getProperty_absent, Hnew).
    reflexivity.
  - intros pre old post Hg Hpre. rewrite Hg.
    rewrite setProperty_old by (apply getProperty_absent, Hpre).
    reflexivity.
Qed.

End MatchClaims.

(** ** The scanner *)

Section ScannerClaims.

Context {host : Host}.
Variables (state : StateCore) (options : option PluginOptions).

Lemma flatMap_visits (children : list Token) :
  forall depth,
    flatMap state options depth children
    = flat_map (replacement state options) (visits depth children).
Proof.
  induction children as [|token rest IH]; intros depth; simpl; [reflexivity|].
  unfold visit. destruct (countDepth depth token) as [l h] eqn:Hd. simpl.
  rewrite IH. reflexivity.
Qed.

Lemma keepsToken_false (l h : Z) (token : Token) :
  keepsToken l h token = false
  <-> (type token = "text"%string /\ (l <= 0)%Z /\ (h <= 0)%Z).
Proof.
  unfold keepsToken. rewrite !orb_false_iff, negb_false_iff.
  rewrite String.eqb_eq, !Z.gtb_ltb, !Z.ltb_ge. tauto.
Qed.

(** The counters are the opening tokens met minus the closing ones. *)
Lemma countDepth_fold (ts : list Token) :
  forall l h,
    fold_left countDepth ts (l, h)
    = (l + opens ts - closes ts, h + rawOpens ts - rawCloses ts)%Z.
Proof.
  unfold opens, closes, rawOpens, rawCloses.
  induction ts as [|t ts IH]; intros l h.
  - simpl. f_equal; lia.
  - cbn [fold_left filter]. unfold countDepth at 2.
    destruct (type t =? "link_open")%string eqn:E1.
    + apply String.eqb_eq in E1. rewrite E1.
      cbn [String.eqb Ascii.eqb Bool.eqb andb].
      rewrite IH. cbn [length]. f_equal; lia.
    + destruct (type t =? "link_close")%string eqn:E2.
      * apply String.eqb_eq in E2. rewrite E2.
        cbn [String.eqb Ascii.eqb Bool.eqb andb].
        rewrite IH. cbn [length]. f_equal; lia.
      * destruct (type t =? "html_inline")%string eqn:E3; cbn [andb negb].
        -- destruct (isLinkOpen (content t)); cbn [andb negb].
           ++ rewrite IH. cbn [length]. f_equal; lia.
           ++ destruct (isLinkClose (content t));
                rewrite IH; cbn [length]; f_equal; lia.
        -- rewrite IH. f_equal; lia.
Qed.

Lemma flatMap_app (a b : list Token) :
  forall depth,
    flatMap state options depth (a ++ b)
    = flatMap state options depth a
        ++ flatMap state options (fold_left countDepth a depth) b.
Proof.
  induction a as [|t a IH]; intros depth; [reflexivity|].
  cbn [app flatMap fold_left]. unfold visit.
  destruct (countDepth depth t) as [l h] eqn:Hd.
  rewrite IH, app_assoc. reflexivity.
Qed.

Lemma countDepth_text (depth : Z * Z) (token : Token) :
  type token = "text"%string -> countDepth depth token = depth.
Proof.
  intros Ht. unfold countDepth. destruct depth as [l h]. rewrite Ht.
  reflexivity.
Qed.

(** The scanner replaces each child of a block by [replacement], which
    hands a child to the splitter exactly when it is a text token and
    neither depth counter is positive at the point the child is visited;
    the counters are the opening tokens met so far minus the closing
    ones.  So a text token that comes after more link-open than link-close
    tokens, or after more raw anchor open tags than raw anchor close tags,
    is returned as it is. *)
Lemma scanner_depths (children : list Token) :
  flatMap state options (0, 0)%Z children
  = flat_map (replacement state options) (visits (0, 0)%Z children)
  /\ (forall l h token,
        In (l, h, token) (visits (0, 0)%Z children) ->
        (keepsToken l h token = false
         <-> (type token = "text"%string /\ (l <= 0)%Z /\ (h <= 0)%Z))
        /\ (keepsToken l h token = false ->
            replacement state options (l, h, token)
            = splitTokens token state options)
        /\ ((0 < l)%Z \/ (0 < h)%Z ->
            replacement state options (l, h, token) = [token]))
  /\ (forall before token after,
        children = before ++ token :: after ->
        type token = "text"%string ->
        (closes before < opens before)%Z
        \/ (rawCloses before < rawOpens before)%Z ->
        flatMap state options (0, 0)%Z children
        = flatMap state options (0, 0)%Z before
            ++ token
            :: flatMap state options
                 (opens before - closes before,
                  rawOpens before - rawCloses before)%Z after).
Proof.
  split; [apply flatMap_visits|]. split.
  - intros l h token _. split; [apply keepsToken_false|]. split.
    + intros Hk. simpl. rewrite Hk. reflexivity.
    + intros Hpos. simpl.
      destruct (keepsToken l h token) eqn:Hk; [reflexivity|].
      apply keepsToken_false in Hk. lia.
  - intros before token after -> Ht Hdepth.
    rewrite flatMap_app, countDepth_fold. f_equal.
    cbn [flatMap]. unfold visit.
    rewrite (countDepth_text _ token Ht).
    replace (keepsToken (0 + opens before - closes before)
               (0 + rawOpens before - rawCloses before) token)
      with true.
    + reflexivity.
    + symmetry. unfold keepsToken. rewrite !Z.gtb_ltb.
      destruct Hdepth as [H|H].
      * replace (0 <? 0 + opens before - closes before)%Z with true
          by (symmetry; apply Z.ltb_lt; lia).
        reflexivity.
      * replace (0 <? 0 + rawOpens before - rawCloses before)%Z with true
          by (symmetry; apply Z.ltb_lt; lia).
        rewrite orb_true_r. reflexivity.
Qed.

(** C1 (the code at the failing input).  The raw anchor depth is not
    kept from going below zero: a raw close tag that closes nothing brings
    it to -1, and the raw open tag that follows brings it back to 0, not
    to 1.  The text token after that open tag lies inside an open raw
    anchor, is visited with both counters at 0 and goes to the splitter,
    which makes mention tokens of its matches. *)
Theorem scanner_gate_unclamped (closeTag openTag token : Token)
  (rest : list Token) :
  type closeTag = "html_inline"%string ->
  isLinkOpen (content closeTag) = false ->
  isLinkClose (content closeTag) = true ->
  type openTag = "html_inline"%string ->
  isLinkOpen (content openTag) = true ->
  type token = "text"%string ->
  visits (0, 0)%Z [closeTag; openTag; token]
  = [ (0, -1, closeTag); (0, 0, openTag); (0, 0, token) ]%Z
  /\ flatMap state options (0, 0)%Z (closeTag :: openTag :: token :: rest)
     = closeTag :: openTag
       :: splitTokens token state options
       ++ flatMap state options (0, 0)%Z rest.
Proof.
  intros Hc Hco Hcc Ho Hoo Ht.
  assert (E1 : countDepth (0, 0)%Z closeTag = (0, -1)%Z).
  { unfold countDepth. rewrite Hc, Hco, Hcc. reflexivity. }
  assert (E2 : countDepth (0, -1)%Z openTag = (0, 0)%Z).
  { unfold countDepth. rewrite Ho, Hoo. reflexivity. }
  assert (E3 : countDepth (0, 0)%Z token = (0, 0)%Z)
    by (apply countDepth_text; exact Ht).
  split.
  - cbn [visits]. rewrite E1. cbn [fst snd]. rewrite E2. cbn [fst snd].
    rewrite E3. reflexivity.
  - cbn [flatMap]. unfold visit. rewrite E1, E2, E3.
    unfold keepsToken. rewrite Hc, Ho, Ht. reflexivity.
Qed.

End ScannerClaims.

(** ** The renderer *)

Lemma appendMentions_nil (env : Env) : appendMentions env [] = env.
Proof. reflexivity. Qed.

Lemma appendMentions_app (env : Env) (a b : list str) :
  appendMentions (appendMentions env a) b = appendMentions env (a ++ b).
Proof.
  destruct a as [|x a]; [reflexivity|].
  destruct b as [|y b]; [rewrite app_nil_r; reflexivity|].
  destruct env as [mentions props|]; simpl; [|reflexivity].
  rewrite <- app_assoc. reflexivity.
Qed.

Lemma mentionInfos_flat_map (tokens : list Token) :
  mentionInfos tokens
  = flat_map (fun t => if isMention t then [info t] else []) tokens.
Proof.
  unfold mentionInfos. induction tokens as [|t ts IH]; simpl; [reflexivity|].
  destruct (isMention t); simpl; rewrite IH; reflexivity.
Qed.

Lemma flat_map_indices {A B : Type} (f : A -> list B) (l pre : list A) :
  flat_map (fun i => match nth_error (pre ++ l) i with
                     | Some x => f x
                     | None => []
                     end) (seq (length pre) (length l))
  = flat_map f l.
Proof.
  revert pre. induction l as [|x l IH]; intros pre; simpl; [reflexivity|].
  rewrite nth_error_app2, Nat.sub_diag by lia. simpl. f_equal.
  specialize (IH (pre ++ [x])).
  rewrite <- app_assoc, length_app, Nat.add_1_r in IH. exact IH.
Qed.

Section RendererClaims.

Context {host : Host}.

Lemma renderMention_mention (tokens : list Token) (i : nat) (token : Token)
  (env : Env) :
  nth_error tokens i = Some token -> isMention token = true ->
  renderMention tokens (Z.of_nat i) env
  = Normal (js "<a " ++ renderAttrs token ++ js ">" ++ content token
              ++ js "</a>",
            appendMentions env [info token]).
Proof.
  intros Hn Hm. unfold renderMention.
  assert (Hi : i < length tokens) by (apply nth_error_Some; congruence).
  destruct (Z.of_nat (length tokens) <=? Z.of_nat i)%Z eqn:Hle;
    [apply Z.leb_le in Hle; lia|].
  destruct (Z.of_nat i <? 0)%Z eqn:Hneg; [apply Z.ltb_lt in Hneg; lia|].
  rewrite Nat2Z.id, Hn. unfold isMention in Hm. rewrite Hm. simpl.
  destruct env; reflexivity.
Qed.

(** An index at or past the end renders as nothing. *)
Lemma renderMention_past_end (tokens : list Token) (idx : Z) (env : Env) :
  (Z.of_nat (length tokens) <= idx)%Z ->
  renderMention tokens idx env = Normal ([], env).
Proof.
  intros Hle. unfold renderMention.
  apply Z.leb_le in Hle. rewrite Hle. reflexivity.
Qed.

(** C7 (the code at the failing input).  An index below zero is out of
    range, the guard [tokens.length <= idx] does not catch it,
    [tokens[idx]] is [undefined] and reading its [type] throws. *)
Theorem renderMention_negative_index (tokens : list Token) (env : Env) :
  renderMention tokens (-1) env = Throw TypeError.
Proof.
  unfold renderMention.
  destruct (Z.of_nat (length tokens) <=? -1)%Z eqn:Hle;
    [apply Z.leb_le in Hle; lia | reflexivity].
Qed.

Lemma renderRule_spec (tokens : list Token) (i : nat) (env : Env) :
  renderRule tokens (Z.of_nat i) env
  = Normal (tokenHtml tokens i,
            appendMentions env
              match nth_error tokens i with
              | Some t => if isMention t then [info t] else []
              | None => []
              end).
Proof.
  unfold renderRule, tokenHtml. rewrite Nat2Z.id.
  destruct (nth_error tokens i) as [token|] eqn:Hn; [|reflexivity].
  fold (isMention token). destruct (isMention token) eqn:Hm; [|reflexivity].
  apply renderMention_mention; assumption.
Qed.

Lemma renderLoop_spec {A : Type}
  (rule : list A -> Z -> Env -> Completion (str * Env))
  (tokens : list A) (out : nat -> str) (infos : nat -> list str) :
  (forall i env, rule tokens (Z.of_nat i) env
                 = Normal (out i, appendMentions env (infos i))) ->
  forall idxs result env,
    renderLoop rule tokens idxs result env
    = Normal (result ++ flat_map out idxs,
              appendMentions env (flat_map infos idxs)).
Proof.
  intros Hrule idxs.
  induction idxs as [|i idxs IH]; intros result env; simpl.
  - rewrite app_nil_r. reflexivity.
  - rewrite Hrule, IH, appendMentions_app, <- app_assoc. reflexivity.
Qed.

Lemma renderInline_spec (tokens : list Token) (env : Env) :
  renderInline tokens env
  = Normal (inlineHtml tokens, appendMentions env (mentionInfos tokens)).
Proof.
  unfold renderInline.
  rewrite (renderLoop_spec renderRule tokens (tokenHtml tokens)
             (fun i => match nth_error tokens i with
                       | Some t => if isMention t then [info t] else []
                       | None => []
                       end)) by (intros; apply renderRule_spec).
  pose proof (flat_map_indices
                (fun t => if isMention t then [info t] else []) tokens [])
    as E.
  simpl in E. rewrite E, <- mentionInfos_flat_map. reflexivity.
Qed.

Lemma renderBlockRule_spec (blocks : list BlockToken) (i : nat) (env : Env) :
  renderBlockRule blocks (Z.of_nat i) env
  = Normal (blockHtml blocks i,
            appendMentions env
              match nth_error blocks i with
              | Some b => blockInfos b
              | None => []
              end).
Proof.
  unfold renderBlockRule, blockHtml, blockInfos. rewrite Nat2Z.id.
  destruct (nth_error blocks i) as [b|]; [|reflexivity].
  destruct (btype b =? "inline")%string; [|reflexivity].
  rewrite renderInline_spec. destruct (children b); reflexivity.
Qed.

Lemma render_spec (blocks : list BlockToken) (env : Env) :
  render blocks env
  = Normal (documentHtml blocks,
            appendMentions env (flat_map blockInfos blocks)).
Proof.
  unfold render.
  rewrite (renderLoop_spec renderBlockRule blocks (blockHtml blocks)
             (fun i => match nth_error blocks i with
                       | Some b => blockInfos b
                       | None => []
                       end)) by (intros; apply renderBlockRule_spec).
  pose proof (flat_map_indices blockInfos blocks []) as E.
  simpl in E. rewrite E. reflexivity.
Qed.

(** C6.  Rendering a mention token appends its [info] to the mentions
    list of an environment that is an object, once, after creating the
    list when the object has none; an environment that is not an object is
    left as it is and the same markup is returned.  Hence a render pass
    over a document returns its markup whatever the environment is, and
    leaves an object environment with the [info] of every mention token
    appended to its mentions list, in the order of the blocks and, within
    a block, of its tokens, repeated handles included. *)
Theorem render_appends_mentions (blocks : list BlockToken) :
  (forall tokens i token,
     nth_error tokens i = Some token -> type token = "mention"%string ->
     (forall mentions props,
        renderMention tokens (Z.of_nat i) (EnvObject mentions props)
        = Normal (tokenHtml tokens i,
                  EnvObject (Some (match mentions with
                                   | Some old => old
                                   | None => []
                                   end ++ [info token])) props))
     /\ renderMention tokens (Z.of_nat i) EnvOther
        = Normal (tokenHtml tokens i, EnvOther))
  /\ (forall env,
        render blocks env
        = Normal (documentHtml blocks,
                  appendMentions env (flat_map blockInfos blocks)))
  /\ (forall mentions props,
        flat_map blockInfos blocks <> [] ->
        render blocks (EnvObject mentions props)
        = Normal (documentHtml blocks,
                  EnvObject (Some (match mentions with
                                   | Some old => old
                                   | None => []
                                   end ++ flat_map blockInfos blocks)) props))
  /\ render blocks EnvOther = Normal (documentHtml blocks, EnvOther).
Proof.
  assert (Hrender : forall env,
            render blocks env
            = Normal (documentHtml blocks,
                      appendMentions env (flat_map blockInfos blocks)))
    by (intros env; apply render_spec).
  split; [|split; [exact Hrender|split]].
  - intros tokens i token Hn Ht.
    assert (Hm : isMention token = true)
      by (unfold isMention; rewrite Ht; reflexivity).
    unfold tokenHtml. rewrite Hn, Hm. split.
    + intros mentions props.
      rewrite (renderMention_mention tokens i token _ Hn Hm). reflexivity.
    + rewrite (renderMention_mention tokens i token _ Hn Hm). reflexivity.
  - intros mentions props Hne. rewrite Hrender.
    destruct (flat_map blockInfos blocks); [congruence | reflexivity].
  - rewrite Hrender. destruct (flat_map blockInfos blocks); reflexivity.
Qed.

End RendererClaims.

(** ** What precedes a match

    The engine looks at the subject from the offset of the attempt on, so
    text put in front of the subject moves the matches and changes nothing
    else. *)

Lemma setCapture_shift (k n : nat) (v : option (nat * nat))
  (caps : list (option (nat * nat))) :
  setCapture n (option_map (shiftRange k) v)
    (List.map (option_map (shiftRange k)) caps)
  = List.map (option_map (shiftRange k)) (setCapture n v caps).
Proof.
  revert n. induction caps as [|c caps IH]; intros n; [reflexivity|].
  destruct n as [|[|n]]; try reflexivity.
  simpl. rewrite <- (IH (S n)). reflexivity.
Qed.

Lemma clearCaptures_shift (k : nat) (parens : list nat) (x : MatchState) :
  clearCaptures parens (shiftState k x)
  = shiftState k (clearCaptures parens x).
Proof.
  unfold clearCaptures, shiftState. simpl. f_equal.
  generalize (captures x) as caps.
  induction parens as [|n parens IH]; intros caps; simpl; [reflexivity|].
  rewrite <- IH. f_equal.
  apply (setCapture_shift k n None caps).
Qed.

Section Shift.

Variables (pre s : str).

Lemma CharacterSetMatcher_shift (p : char -> bool) (x : MatchState)
  (c' c : Continuation) :
  shifted pre c' c ->
  CharacterSetMatcher (pre ++ s) p (shiftState (length pre) x) c'
  = option_map (shiftState (length pre)) (CharacterSetMatcher s p x c).
Proof.
  intros Hc. unfold CharacterSetMatcher. simpl.
  rewrite nth_error_app2 by lia.
  replace (length pre + endIndex x - length pre) with (endIndex x) by lia.
  destruct (nth_error s (endIndex x)) as [ch|]; [|reflexivity].
  destruct (p ch); [|reflexivity].
  rewrite <- Hc. unfold shiftState. simpl. rewrite Nat.add_succ_r.
  reflexivity.
Qed.

Lemma RepeatMatcher_shift (m' m : Matcher) :
  (forall x c' c, shifted pre c' c ->
     m' (shiftState (length pre) x) c'
     = option_map (shiftState (length pre)) (m x c)) ->
  forall fuel min max parens x c' c,
    shifted pre c' c ->
    RepeatMatcher m' fuel min max parens (shiftState (length pre) x) c'
    = option_map (shiftState (length pre))
        (RepeatMatcher m fuel min max parens x c).
Proof.
  intros Hm fuel.
  induction fuel as [|fuel IH]; intros min max parens x c' c Hc.
  - simpl. destruct max as [[|k]|]; auto.
  - assert (Hd :
      m' (clearCaptures parens (shiftState (length pre) x))
        (fun y =>
           if (min =? 0)
              && (endIndex y =? endIndex (shiftState (length pre) x))
           then None
           else RepeatMatcher m' fuel (Nat.pred min)
                  (option_map Nat.pred max) parens y c')
      = option_map (shiftState (length pre))
          (m (clearCaptures parens x)
             (fun y =>
                if (min =? 0) && (endIndex y =? endIndex x) then None
                else RepeatMatcher m fuel (Nat.pred min)
                       (option_map Nat.pred max) parens y c))).
    { rewrite clearCaptures_shift. apply Hm. intros y. simpl.
      replace (length pre + endIndex y =? length pre + endIndex x)
        with (endIndex y =? endIndex x).
      - destruct ((min =? 0) && (endIndex y =? endIndex x)); [reflexivity|].
        apply IH. exact Hc.
      - destruct (endIndex y =? endIndex x) eqn:E; symmetry.
        + apply Nat.eqb_eq in E. apply Nat.eqb_eq. lia.
        + apply Nat.eqb_neq in E. apply Nat.eqb_neq. lia. }
    simpl in Hd |- *. destruct max as [[|k]|]; [apply Hc| |];
      rewrite Hd;
      (destruct (negb (min =? 0)); [reflexivity|]);
      (destruct (m (clearCaptures parens x) _); [reflexivity | apply Hc]).
Qed.

Lemma compile_shift (r : Regex) :
  forall x c' c, shifted pre c' c ->
    compile (pre ++ s) r (shiftState (length pre) x) c'
    = option_map (shiftState (length pre)) (compile s r x c).
Proof.
  induction r as [ch|p|r1 IH1 r2 IH2|r IH min max|n r IH]; intros x c' c Hc.
  - apply CharacterSetMatcher_shift. exact Hc.
  - apply CharacterSetMatcher_shift. exact Hc.
  - simpl. apply IH1. intros y. apply IH2. exact Hc.
  - change (RepeatMatcher (compile (pre ++ s) r)
              (S (min + (length (pre ++ s)
                         - endIndex (shiftState (length pre) x))))
              min max (groupsOf r) (shiftState (length pre) x) c'
            = option_map (shiftState (length pre))
                (RepeatMatcher (compile s r)
                   (S (min + (length s - endIndex x))) min max (groupsOf r)
                   x c)).
    replace (length (pre ++ s) - endIndex (shiftState (length pre) x))
      with (length s - endIndex x)
      by (rewrite length_app; simpl; lia).
    apply RepeatMatcher_shift; [exact IH | exact Hc].
  - simpl. apply IH. intros y. simpl.
    rewrite <- (Hc {| endIndex := endIndex y;
                      captures := setCapture n (Some (endIndex x, endIndex y))
                                    (captures y) |}).
    unfold shiftState. simpl.
    rewrite <- setCapture_shift. reflexivity.
Qed.

Lemma matchAt_shift (r : Regex) (i : nat) :
  matchAt (pre ++ s) r (length pre + i)
  = option_map (shiftState (length pre)) (matchAt s r i).
Proof.
  unfold matchAt.
  rewrite <- (compile_shift r
                {| endIndex := i;
                   captures := repeat None (list_max (groupsOf r)) |}
                (fun y => Some y) (fun y => Some y))
    by (intros y; reflexivity).
  unfold shiftState. simpl. rewrite map_repeat. reflexivity.
Qed.

Lemma substring_shift (a b : nat) :
  substring (pre ++ s) (length pre + a) (length pre + b) = substring s a b.
Proof.
  unfold substring. rewrite length_app.
  set (A := Nat.min a (length s)). set (B := Nat.min b (length s)).
  replace (Nat.min (length pre + a) (length pre + length s))
    with (length pre + A) by (unfold A; lia).
  replace (Nat.min (length pre + b) (length pre + length s))
    with (length pre + B) by (unfold B; lia).
  replace (Nat.min (length pre + A) (length pre + B))
    with (length pre + Nat.min A B) by lia.
  replace (Nat.max (length pre + A) (length pre + B)
           - (length pre + Nat.min A B))
    with (Nat.max A B - Nat.min A B) by lia.
  rewrite skipn_app, skipn_all2 by lia.
  replace (length pre + Nat.min A B - length pre) with (Nat.min A B) by lia.
  reflexivity.
Qed.

Lemma toMatch_shift (i : nat) (y : MatchState) :
  toMatch (pre ++ s) (length pre + i) (shiftState (length pre) y)
  = shiftMatch (length pre) (toMatch s i y).
Proof.
  unfold toMatch, shiftMatch. simpl. rewrite substring_shift. f_equal.
  change (nth 0 (List.map (option_map (shiftRange (length pre)))
                   (captures y)) None)
    with (nth 0 (List.map (option_map (shiftRange (length pre)))
                   (captures y))
            (option_map (shiftRange (length pre)) None)).
  rewrite map_nth.
  destruct (nth 0 (captures y) None) as [[a b]|]; [|reflexivity].
  simpl. rewrite substring_shift. reflexivity.
Qed.

Lemma scan_shift (r : Regex) (starts : list nat) :
  forall lastIndex,
    scan r (pre ++ s) (List.map (Nat.add (length pre)) starts)
      (length pre + lastIndex)
    = List.map (shiftMatch (length pre)) (scan r s starts lastIndex).
Proof.
  induction starts as [|i starts IH]; intros lastIndex; simpl; [reflexivity|].
  replace (length pre + i <? length pre + lastIndex) with (i <? lastIndex).
  - destruct (i <? lastIndex); [apply IH|].
    rewrite matchAt_shift.
    destruct (matchAt s r i) as [y|]; simpl.
    + rewrite toMatch_shift. f_equal.
      replace (length pre + endIndex y =? length pre + i)
        with (endIndex y =? i).
      * destruct (endIndex y =? i);
          [rewrite <- Nat.add_succ_r|]; apply IH.
      * destruct (endIndex y =? i) eqn:E; symmetry.
        -- apply Nat.eqb_eq in E. apply Nat.eqb_eq. lia.
        -- apply Nat.eqb_neq in E. apply Nat.eqb_neq. lia.
    + rewrite <- Nat.add_succ_r. apply IH.
  - destruct (i <? lastIndex) eqn:E; symmetry.
    + apply Nat.ltb_lt in E. apply Nat.ltb_lt. lia.
    + apply Nat.ltb_ge in E. apply Nat.ltb_ge. lia.
Qed.

End Shift.

(** An attempt succeeds only at an [@]. *)
Lemma matchAt_needs_at (host : Host) (s : str) (i : nat) :
  nth_error s i <> Some AT -> matchAt s MENTION_PATTERN i = None.
Proof.
  intros Hn. unfold matchAt, MENTION_PATTERN. cbn [compile].
  unfold CharacterSetMatcher at 1. cbn [endIndex].
  destruct (nth_error s i) as [ch|]; [|reflexivity].
  destruct (N.eqb AT ch) eqn:E; [|reflexivity].
  apply N.eqb_eq in E. congruence.
Qed.

Lemma scan_lastIndex (r : Regex) (s : str) (starts : list nat) (a b : nat) :
  Forall (fun j => a <= j /\ b <= j) starts ->
  scan r s starts a = scan r s starts b.
Proof.
  intros H. destruct H as [|j starts [Ha Hb] _]; [reflexivity|]. simpl.
  destruct (j <? a) eqn:E1; [apply Nat.ltb_lt in E1; lia|].
  destruct (j <? b) eqn:E2; [apply Nat.ltb_lt in E2; lia|].
  reflexivity.
Qed.

Lemma scan_failures (r : Regex) (s : str) (rest : list nat) (n : nat) :
  forall i lastIndex,
    lastIndex <= i ->
    (forall j, i <= j < i + n -> matchAt s r j = None) ->
    Forall (fun j => i + n <= j) rest ->
    scan r s (seq i n ++ rest) lastIndex = scan r s rest (i + n).
Proof.
  induction n as [|n IH]; intros i lastIndex Hl Hfail Hrest; simpl.
  - apply scan_lastIndex. eapply Forall_impl; [|exact Hrest].
    simpl. intros j Hj. lia.
  - destruct (i <? lastIndex) eqn:E; [apply Nat.ltb_lt in E; lia|].
    rewrite (Hfail i) by lia.
    rewrite (IH (S i) (S i)); try lia.
    + f_equal. lia.
    + intros j Hj. apply Hfail. lia.
    + eapply Forall_impl; [|exact Hrest]. simpl. intros j Hj. lia.
Qed.

Lemma seq_add (k n : nat) : seq k n = List.map (Nat.add k) (seq 0 n).
Proof.
  induction k as [|k IH]; simpl.
  - symmetry. apply map_id.
  - rewrite <- seq_shift, IH, map_map. reflexivity.
Qed.

(** Text without [@] put in front of a text moves its matches and changes
    nothing else: a match needs nothing of what precedes it. *)
Lemma matchAll_after_prefix (host : Host) (pre s : str) :
  ~ In AT pre ->
  matchAll MENTION_PATTERN (pre ++ s)
  = List.map (shiftMatch (length pre)) (matchAll MENTION_PATTERN s).
Proof.
  intros Hpre. unfold matchAll. rewrite length_app.
  replace (S (length pre + length s)) with (length pre + S (length s))
    by lia.
  rewrite seq_app. simpl Nat.add.
  rewrite scan_failures.
  - rewrite seq_add. simpl Nat.add.
    rewrite <- (scan_shift pre s MENTION_PATTERN (seq 0 (S (length s))) 0).
    rewrite Nat.add_0_r. reflexivity.
  - lia.
  - intros j Hj. apply matchAt_needs_at.
    rewrite nth_error_app1 by lia. intros E. apply Hpre.
    eapply nth_error_In. exact E.
  - apply Forall_forall. intros j Hj. apply in_seq in Hj. lia.
Qed.

(** ** Evaluation on ASCII text *)

Lemma asciiTables_asciiHost : asciiTables asciiHost.
Proof. intros c _. split; reflexivity. Qed.

Lemma isAscii_forallb (s : str) :
  forallb (fun c => (c <? 128)%N) s = true -> isAscii s.
Proof.
  intros H. apply Forall_forall. intros c Hc.
  rewrite forallb_forall in H. apply N.ltb_lt. apply H. exact Hc.
Qed.

Lemma pattern_sameOn (host : Host) (s : str) :
  asciiTables host -> isAscii s ->
  sameOn s (@MENTION_PATTERN host) (@MENTION_PATTERN asciiHost).
Proof.
  intros Htab Hs.
  assert (HLN : Forall (fun ch => @letterOrNumber host ch
                                  = @letterOrNumber asciiHost ch) s).
  { eapply Forall_impl; [|exact Hs]. intros c Hc. unfold letterOrNumber.
    destruct (Htab c Hc) as [-> ->]. reflexivity. }
  assert (Hh : Forall (fun ch => @handleChar host ch
                                 = @handleChar asciiHost ch) s).
  { eapply Forall_impl; [|exact HLN]. intros c Hc. unfold handleChar.
    rewrite Hc. reflexivity. }
  assert (Hl : Forall (fun ch => @labelChar host ch
                                 = @labelChar asciiHost ch) s).
  { eapply Forall_impl; [|exact HLN]. intros c Hc. unfold labelChar.
    rewrite Hc. reflexivity. }
  unfold MENTION_PATTERN. simpl. auto 20.
Qed.

(** On ASCII text every host with the Unicode tables finds the matches the
    ASCII tables find. *)
Lemma matchAll_ascii (host : Host) (s : str) :
  asciiTables host -> isAscii s ->
  matchAll (@MENTION_PATTERN host) s = matchAll (@MENTION_PATTERN asciiHost) s.
Proof.
  intros Htab Hs. apply matchAll_sameOn. apply pattern_sameOn; assumption.
Qed.

Ltac ascii_matches Htab :=
  rewrite (matchAll_ascii _ _ Htab) by (apply isAscii_forallb; reflexivity).

Section Examples.

Context {host : Host}.
Hypothesis Htab : asciiTables host.

Lemma matchAll_acct :
  matchAll MENTION_PATTERN (js "@a@b.com")
  = [ {| index := 0; whole := js "@a@b.com"; group1 := Some (js "@b.com") |} ].
Proof. ascii_matches Htab. vm_compute. reflexivity. Qed.

Lemma matchAll_email :
  matchAll MENTION_PATTERN (js "user@example.com")
  = [ {| index := 4; whole := js "@example.com"; group1 := None |} ].
Proof. ascii_matches Htab. vm_compute. reflexivity. Qed.

Lemma matchAll_foo :
  matchAll MENTION_PATTERN (js "@foo")
  = [ {| index := 0; whole := js "@foo"; group1 := None |} ].
Proof. ascii_matches Htab. vm_compute. reflexivity. Qed.

Lemma flatMap_text (state : StateCore) (options : option PluginOptions)
  (s : str) (lvl : Z) :
  flatMap state options (0, 0)%Z [textToken s lvl]
  = splitTokens (textToken s lvl) state options.
Proof. simpl. apply app_nil_r. Qed.

Lemma splitTokens_acct (state : StateCore) (lvl : Z) :
  splitTokens (textToken (js "@a@b.com") lvl) state None
  = [ {| type := "mention"; tag := ""; nesting := 0;
         attrs := Some [(js "href", js "acct:@a@b.com")];
         level := lvl;
         content := toBareHandle (js "@a@b.com") (env state);
         info := js "@a@b.com" |} ].
Proof.
  unfold splitTokens.
  change (content (textToken (js "@a@b.com") lvl)) with (js "@a@b.com").
  rewrite matchAll_acct. reflexivity.
Qed.

(** C5.  With no options, the paragraph [@a@b.com] becomes one mention
    token whose [info] is [@a@b.com] and whose only attribute is [href],
    [acct:@a@b.com]; it renders as the anchor that carries these
    attributes, between what the host renders for the paragraph, and the
    render pass leaves an environment that had no mentions with the list
    of the one handle [@a@b.com]. *)
Theorem acct_example (props : list (str * str)) :
  tokens (parseMention
            (mkState (paragraph [textToken (js "@a@b.com") 0])
               (EnvObject None props)) None)
  = paragraph
      [acctToken (toBareHandle (js "@a@b.com") (EnvObject None props))]
  /\ render
       (tokens (parseMention
                  (mkState (paragraph [textToken (js "@a@b.com") 0])
                     (EnvObject None props)) None))
       (EnvObject None props)
     = Normal
         (blockRule
            (paragraph
               [acctToken
                  (toBareHandle (js "@a@b.com") (EnvObject None props))]) 0
            ++ (js "<a "
                  ++ renderAttrs
                       (acctToken
                          (toBareHandle (js "@a@b.com")
                             (EnvObject None props)))
                  ++ js ">"
                  ++ toBareHandle (js "@a@b.com") (EnvObject None props)
                  ++ js "</a>")
            ++ blockRule
                 (paragraph
                    [acctToken
                       (toBareHandle (js "@a@b.com")
                          (EnvObject None props))]) 2,
          EnvObject (Some [js "@a@b.com"]) props).
Proof.
  assert (E : tokens (parseMention
                (mkState (paragraph [textToken (js "@a@b.com") 0])
                   (EnvObject None props)) None)
              = paragraph
                  [acctToken
                     (toBareHandle (js "@a@b.com") (EnvObject None props))]).
  { unfold parseMention, parseBlock, paragraph.
    cbn [tokens List.map btype children String.eqb Ascii.eqb Bool.eqb negb].
    rewrite flatMap_text, splitTokens_acct. reflexivity. }
  split; [exact E|]. rewrite E, render_spec.
  cbn. rewrite !app_nil_r. reflexivity.
Qed.

Lemma splitTokens_email (state : StateCore) (lvl : Z)
  (f : str -> Env -> option str) (d : str) :
  f (js "@example.com") (env state) = Some d ->
  splitTokens (textToken (js "user@example.com") lvl) state
    (Some (mkOptions (Some f) None None None))
  = [ textToken (js "user") lvl;
      mentionToken state (Some (mkOptions (Some f) None None None)) lvl
        (js "@example.com" ++ AT :: d) None ].
Proof.
  intros Hd. unfold splitTokens.
  change (content (textToken (js "user@example.com") lvl))
    with (js "user@example.com").
  rewrite matchAll_email.
  cbn [fold_left]. unfold loopBody, completeHandle.
  cbn [group1 whole opt localDomain env]. rewrite Hd.
  reflexivity.
Qed.

(** C10.  The pattern asks nothing of what precedes a match: text without
    [@] in front of a text leaves the matches of the text as they are,
    moved by its length.  So in [user@example.com] the part
    [@example.com] is a match, without a domain group, and the loop hands
    it to the local-domain resolver as a bare handle; when the resolver
    returns a domain the part becomes a mention. *)
Theorem no_left_boundary :
  (forall pre s : str,
     ~ In AT pre ->
     matchAll MENTION_PATTERN (pre ++ s)
     = List.map (shiftMatch (length pre)) (matchAll MENTION_PATTERN s))
  /\ matchAll MENTION_PATTERN (js "user@example.com")
     = [ {| index := 4; whole := js "@example.com"; group1 := None |} ]
  /\ (forall state options f,
        opt options localDomain = Some f ->
        completeHandle state options
          {| index := 4; whole := js "@example.com"; group1 := None |}
        = option_map (fun d => js "@example.com" ++ AT :: d)
            (f (js "@example.com") (env state)))
  /\ (forall state lvl f d,
        f (js "@example.com") (env state) = Some d ->
        splitTokens (textToken (js "user@example.com") lvl) state
          (Some (mkOptions (Some f) None None None))
        = [ textToken (js "user") lvl;
            mentionToken state (Some (mkOptions (Some f) None None None))
              lvl (js "@example.com" ++ AT :: d) None ]).
Proof.
  split; [intros pre s; apply matchAll_after_prefix|].
  split; [apply matchAll_email|]. split.
  - intros state options f Hf. unfold completeHandle.
    cbn [group1 whole]. rewrite Hf.
    destruct (f (js "@example.com") (env state)); reflexivity.
  - intros state lvl f d. apply splitTokens_email.
Qed.

(** *** The cases of [plugin.test.ts] *)

Example bare_handle_without_resolver (state : StateCore) (lvl : Z) :
  splitTokens (textToken (js "This also should be ignored: @foo.") lvl)
    state None
  = [textToken (js "This also should be ignored: @foo.") lvl].
Proof.
  unfold splitTokens.
  change (content (textToken (js "This also should be ignored: @foo.") lvl))
    with (js "This also should be ignored: @foo.").
  ascii_matches Htab.
  replace (matchAll (@MENTION_PATTERN asciiHost)
             (js "This also should be ignored: @foo."))
    with [ {| index := 29; whole := js "@foo."; group1 := None |} ]
    by (vm_compute; reflexivity).
  reflexivity.
Qed.

Example mention_inside_link (state : StateCore) (lvl : Z) :
  flatMap state None (0, 0)%Z
    [ linkOpen;
      textToken (js "This should be ignored: @hongminhee@wizard.casa") lvl;
      linkClose ]
  = [ linkOpen;
      textToken (js "This should be ignored: @hongminhee@wizard.casa") lvl;
      linkClose ].
Proof. reflexivity. Qed.

Example mention_in_emphasis (state : StateCore) :
  flatMap state None (0, 0)%Z
    [ newToken "em_open" "em" 1;
      textToken (js "@hongminhee@mastodon.social") 1;
      newToken "em_close" "em" (-1);
      textToken (js "!") 0 ]
  = [ newToken "em_open" "em" 1;
      mentionToken state None 1 (js "@hongminhee@mastodon.social") None;
      newToken "em_close" "em" (-1);
      textToken (js "!") 0 ].
Proof.
  cbn [flatMap visit]. unfold visit.
  cbn [countDepth keepsToken type newToken textToken set_level set_content
       String.eqb Ascii.eqb Bool.eqb negb orb Z.gtb Z.compare fst snd].
  unfold splitTokens.
  change (content (textToken (js "@hongminhee@mastodon.social") 1))
    with (js "@hongminhee@mastodon.social").
  change (content (textToken (js "!") 0)) with (js "!").
  ascii_matches Htab. ascii_matches Htab.
  replace (matchAll (@MENTION_PATTERN asciiHost)
             (js "@hongminhee@mastodon.social"))
    with [ {| index := 0; whole := js "@hongminhee@mastodon.social";
              group1 := Some (js "@mastodon.social") |} ]
    by (vm_compute; reflexivity).
  replace (matchAll (@MENTION_PATTERN asciiHost) (js "!"))
    with (@nil RegExpMatch) by (vm_compute; reflexivity).
  reflexivity.
Qed.

Example link_resolver_rejects (state : StateCore) (lvl : Z) :
  splitTokens (textToken (js "@baz@qux.com") lvl) state
    (Some (mkOptions None (Some (fun _ _ => None)) None None))
  = [textToken (js "@baz@qux.com") lvl].
Proof.
  unfold splitTokens.
  change (content (textToken (js "@baz@qux.com") lvl))
    with (js "@baz@qux.com").
  ascii_matches Htab.
  replace (matchAll (@MENTION_PATTERN asciiHost) (js "@baz@qux.com"))
    with [ {| index := 0; whole := js "@baz@qux.com";
              group1 := Some (js "@qux.com") |} ]
    by (vm_compute; reflexivity).
  reflexivity.
Qed.

Example local_domain_resolves (state : StateCore) (lvl : Z)
  (f : str -> Env -> option str) :
  f (js "@foo") (env state) = Some (js "a.com") ->
  splitTokens (textToken (js "@foo") lvl) state
    (Some (mkOptions (Some f) None None None))
  = [mentionToken state (Some (mkOptions (Some f) None None None)) lvl
       (js "@foo@a.com") None].
Proof.
  intros Hf. unfold splitTokens.
  change (content (textToken (js "@foo") lvl)) with (js "@foo").
  rewrite matchAll_foo.
  cbn [fold_left]. unfold loopBody, completeHandle.
  cbn [group1 whole opt localDomain env]. rewrite Hf.
  reflexivity.
Qed.

End Examples.

(** ** Where the claims as written fail, and instances of the theorems *)

(** C1 at the inline children of [</a><a href="x">@a@b.com</a>], with
    the helpers of [./html.ts] after the specification: the handle inside
    the open anchor becomes a mention token. *)
Lemma scanner_gate_unclamped_witness :
  (type (htmlToken (js "</a>")) = "html_inline"%string
   /\ specIsLinkOpen (content (htmlToken (js "</a>"))) = false
   /\ specIsLinkClose (content (htmlToken (js "</a>"))) = true
   /\ type (htmlToken (js "<a href=" ++ QUOTE :: js "x" ++ QUOTE :: js ">"))
      = "html_inline"%string
   /\ specIsLinkOpen
        (content
           (htmlToken (js "<a href=" ++ QUOTE :: js "x" ++ QUOTE :: js ">")))
      = true
   /\ type (textToken (js "@a@b.com") 0) = "text"%string)
  /\ @flatMap asciiHost (mkState [] EnvOther) None (0, 0)%Z
       [ htmlToken (js "</a>");
         htmlToken (js "<a href=" ++ QUOTE :: js "x" ++ QUOTE :: js ">");
         textToken (js "@a@b.com") 0;
         htmlToken (js "</a>") ]
     = [ htmlToken (js "</a>");
         htmlToken (js "<a href=" ++ QUOTE :: js "x" ++ QUOTE :: js ">");
         {| type := "mention"; tag := ""; nesting := 0;
            attrs := Some [(js "href", js "acct:@a@b.com")];
            level := 0;
            content := specToBareHandle (js "@a@b.com") EnvOther;
            info := js "@a@b.com" |};
         htmlToken (js "</a>") ].
Proof.
  split; [repeat split|].
  etransitivity;
    [ exact (proj2
               (@scanner_gate_unclamped asciiHost (mkState [] EnvOther) None
                  (htmlToken (js "</a>"))
                  (htmlToken
                     (js "<a href=" ++ QUOTE :: js "x" ++ QUOTE :: js ">"))
                  (textToken (js "@a@b.com") 0)
                  [htmlToken (js "</a>")]
                  eq_refl eq_refl eq_refl eq_refl eq_refl eq_refl))
    | vm_compute; reflexivity ].
Defined.


(** C8 (as written: the resolver's entries first, [href] last).  When the
    link-attributes resolver returns an [href] of its own, followed by a
    class, and the link resolver returns the target [https://x/], the
    token's [href] keeps the first place and holds the link target; the
    resolver's value for it is gone. *)
Lemma mention_attributes_counterexample :
  List.map attrs
    (@splitTokens asciiHost (textToken (js "@a@b.com") 0)
       (mkState [] EnvOther)
       (Some (mkOptions None
                (Some (fun _ _ => Some (js "https://x/")))
                (Some (fun _ _ => [ (js "href", js "x");
                                    (js "class", js "m") ]))
                None)))
  = [ Some [ (js "href", js "https://x/"); (js "class", js "m") ] ].
Proof. vm_compute. reflexivity. Qed.

(** C9 (as written: a text token without a match gives a sequence of one
    element).  A text token whose content is empty has no match and is
    replaced by nothing. *)
Lemma splitTokens_boundaries_counterexample :
  matchAll (@MENTION_PATTERN asciiHost) (content (textToken [] 0)) = []
  /\ @splitTokens asciiHost (textToken [] 0) (mkState [] EnvOther) None = [].
Proof. split; vm_compute; reflexivity. Qed.



(** C8 at the full handle [@a@b.com] with a link resolver that returns
    [https://x/]: the link-attributes resolver returns a class only, and
    an [href] of its own before a class. *)
Lemma mention_attributes_witness :
  (group1 {| index := 0; whole := js "@a@b.com";
             group1 := Some (js "@b.com") |} <> None
   /\ js "@a@b.com"
      = whole {| index := 0; whole := js "@a@b.com";
                 group1 := Some (js "@b.com") |})
  /\ @loopBody asciiHost (js "@a@b.com") 0 (mkState [] EnvOther)
       (Some (mkOptions None
                (Some (fun _ _ => Some (js "https://x/")))
                (Some (fun _ _ => [(js "class", js "m")]))
                None))
       (0, [])
       {| index := 0; whole := js "@a@b.com"; group1 := Some (js "@b.com") |}
     = (8,
        [ {| type := "mention"; tag := ""; nesting := 0;
             attrs := Some [ (js "class", js "m");
                             (js "href", js "https://x/") ];
             level := 0;
             content := specToBareHandle (js "@a@b.com") EnvOther;
             info := js "@a@b.com" |} ])
  /\ @loopBody asciiHost (js "@a@b.com") 0 (mkState [] EnvOther)
       (Some (mkOptions None
                (Some (fun _ _ => Some (js "https://x/")))
                (Some (fun _ _ => [ (js "href", js "x");
                                    (js "class", js "m") ]))
                None))
       (0, [])
       {| index := 0; whole := js "@a@b.com"; group1 := Some (js "@b.com") |}
     = (8,
        [ {| type := "mention"; tag := ""; nesting := 0;
             attrs := Some [ (js "href", js "https://x/");
                             (js "class", js "m") ];
             level := 0;
             content := specToBareHandle (js "@a@b.com") EnvOther;
             info := js "@a@b.com" |} ]).
Proof.
  assert (H : group1 {| index := 0; whole := js "@a@b.com";
                        group1 := Some (js "@b.com") |} <> None
              /\ js "@a@b.com"
                 = whole {| index := 0; whole := js "@a@b.com";
                            group1 := Some (js "@b.com") |})
    by (split; [discriminate | reflexivity]).
  split; [exact H|]. split.
  - refine (proj1
              (@mention_attributes asciiHost (js "@a@b.com") 0%Z
                 (mkState [] EnvOther)
                 (Some (mkOptions None
                          (Some (fun _ _ => Some (js "https://x/")))
                          (Some (fun _ _ => [(js "class", js "m")]))
                          None))
                 0 []
                 {| index := 0; whole := js "@a@b.com";
                    group1 := Some (js "@b.com") |}
                 (js "@a@b.com") (js "https://x/") (or_introl H) eq_refl)
              _).
    vm_compute. intuition discriminate.
  - refine (proj2
              (@mention_attributes asciiHost (js "@a@b.com") 0%Z
                 (mkState [] EnvOther)
                 (Some (mkOptions None
                          (Some (fun _ _ => Some (js "https://x/")))
                          (Some (fun _ _ => [ (js "href", js "x");
                                              (js "class", js "m") ]))
                          None))
                 0 []
                 {| index := 0; whole := js "@a@b.com";
                    group1 := Some (js "@b.com") |}
                 (js "@a@b.com") (js "https://x/") (or_introl H) eq_refl)
              [] (js "x") [(js "class", js "m")] eq_refl _).
    simpl. tauto.
Defined.

(** C5 with the ASCII tables and markdown-it's attribute rendering. *)
Lemma acct_example_witness :
  asciiTables asciiHost
  /\ @render asciiHost
       (tokens (@parseMention asciiHost
                  (mkState (paragraph [textToken (js "@a@b.com") 0])
                     (EnvObject None [])) None))
       (EnvObject None [])
     = Normal
         (js "<a  href=" ++ QUOTE :: js "acct:@a@b.com" ++ QUOTE :: js ">"
            ++ specToBareHandle (js "@a@b.com") (EnvObject None [])
            ++ js "</a>",
          EnvObject (Some [js "@a@b.com"]) []).
Proof.
  split; [exact asciiTables_asciiHost|].
  exact (proj2 (@acct_example asciiHost asciiTables_asciiHost [])).
Defined.

(** C10 with the ASCII tables. *)
Lemma no_left_boundary_witness :
  asciiTables asciiHost
  /\ matchAll (@MENTION_PATTERN asciiHost) (js "user@example.com")
     = [ {| index := 4; whole := js "@example.com"; group1 := None |} ].
Proof.
  split; [exact asciiTables_asciiHost|].
  exact (proj1 (proj2 (@no_left_boundary asciiHost asciiTables_asciiHost))).
Defined.

(** * Further properties of the code *)

(** ** The splitter *)

Lemma concat_nonempty_length (pieces : list str) :
  Forall (fun p => p <> []) pieces -> length pieces <= length (concat pieces).
Proof.
  induction 1 as [|p pieces Hp _ IH]; simpl; [lia|].
  rewrite length_app. destruct p; [congruence | simpl; lia].
Qed.

Lemma getProperty_setProperty_other (r : JsRecord) (key value k : str) :
  k <> key -> getProperty (setProperty r key value) k = getProperty r k.
Proof.
  intros Hk. assert (E : str_eqb key k = false).
  { destruct (str_eqb key k) eqn:E; [|reflexivity].
    apply str_eqb_eq in E. congruence. }
  induction r as [|[k0 v0] r IH]; simpl.
  - rewrite E. reflexivity.
  - destruct (str_eqb k0 key) eqn:E0; simpl.
    + apply str_eqb_eq in E0. subst k0. rewrite E. reflexivity.
    + rewrite IH. reflexivity.
Qed.

Section SplitterFurther.

Context {host : Host}.
Variables (state : StateCore) (options : option PluginOptions).

(** X1.  The splitter returns at most as many tokens as the text has code
    points: every token it returns stands for a piece of the text that is
    not empty. *)
Theorem splitTokens_length (token : Token) :
  length (splitTokens token state options) <= length (content token).
Proof.
  destruct (splitTokens_pieces state options (content token) (level token)
              token eq_refl eq_refl) as (pieces & H1 & H2 & H3 & _).
  rewrite <- (Forall2_length H2), <- H1.
  apply concat_nonempty_length. exact H3.
Qed.

(** X2.  When the splitter returns no mention token (every match is left
    alone or declined by the link resolver), the contents of the text
    tokens it returns, put together, are the text as it was. *)
Theorem splitTokens_verbatim (token : Token) :
  Forall (fun t => isMention t = false) (splitTokens token state options) ->
  concat (List.map content (splitTokens token state options))
  = content token.
Proof.
  intros Hno.
  destruct (splitTokens_pieces state options (content token) (level token)
              token eq_refl eq_refl) as (pieces & H1 & H2 & _).
  rewrite <- H1. clear H1. f_equal.
  induction H2 as [|p t pieces ts Hc _ IH]; [reflexivity|].
  inversion Hno as [|? ? Ht Hts]; subst. simpl. f_equal; [|apply IH; exact Hts].
  destruct Hc as [[_ E]|[Hm _]]; [exact E|].
  unfold isMention in Ht. rewrite Hm in Ht. discriminate.
Qed.






(** What the loop pushes for a match agrees with the resolvers at the
    handle it holds. *)
Lemma agrees_pushMatch (P : Token -> Prop) (text : str) (lvl : Z)
  (acc : nat * list Token) (m : RegExpMatch) (handle : str) :
  (forall s, P (textToken s lvl)) ->
  (opt options link = None
   \/ (exists h, resolveHref state options handle = Some h) ->
   P (mentionToken state options lvl handle
        (resolveHref state options handle))) ->
  Forall P (snd acc) ->
  Forall P (snd (pushMatch text lvl state options acc m handle)).
Proof.
  intros Htext Hment Hacc. destruct acc as [pos tokens]. cbn [snd] in Hacc.
  assert (Hb : Forall P (pushBefore text lvl pos tokens m)).
  { unfold pushBefore. destruct (pos <? index m); [|exact Hacc].
    apply Forall_app. split; [exact Hacc|]. constructor; [apply Htext|].
    constructor. }
  unfold pushMatch.
  destruct (resolveHref state options handle) as [h|] eqn:Hh;
    destruct (opt options link) as [g|] eqn:Hg; cbn [snd];
    apply Forall_app; (split; [exact Hb|]); constructor;
    try constructor; try apply Htext; apply Hment; eauto.
Qed.

Lemma agrees_splitTokens (P : Token -> Prop) (token : Token) :
  (forall s, P (textToken s (level token))) ->
  (forall handle,
     opt options link = None
     \/ (exists h, resolveHref state options handle = Some h) ->
     P (mentionToken state options (level token) handle
          (resolveHref state options handle))) ->
  Forall P (splitTokens token state options).
Proof.
  intros Htext Hment. unfold splitTokens.
  assert (G : forall ms acc,
            Forall P (snd acc) ->
            Forall P (snd (fold_left
                             (loopBody (content token) (level token) state
                                options) ms acc))).
  { induction ms as [|m ms IH]; intros acc Hacc; [exact Hacc|].
    cbn [fold_left]. apply IH. unfold loopBody.
    destruct (completeHandle state options m) as [handle|]; [|exact Hacc].
    apply agrees_pushMatch; auto. }
  specialize (G (matchAll MENTION_PATTERN (content token)) (0, [])
                (Forall_nil P)).
  destruct (fold_left (loopBody (content token) (level token) state options)
              (matchAll MENTION_PATTERN (content token)) (0, []))
    as [pos tokens].
  cbn [snd] in G. destruct (pos <? length (content token)); [|exact G].
  apply Forall_app. split; [exact G|]. constructor; [apply Htext|].
  constructor.
Qed.

(** X5.  Every mention token the splitter returns agrees with the
    resolvers at the handle it holds in [info]: its [href] is what the
    link resolver returns for that handle (a value, never nothing), or
    [acct:] and the handle when no link resolver is configured; every
    other attribute reads as the link-attributes resolver returns it for
    the handle; its content is what the label resolver returns for the
    handle, [toBareHandle] by default; its level is that of the token that
    was split. *)
Theorem mention_attribute_lookup (token t : Token) :
  In t (splitTokens token state options) ->
  type t = "mention"%string ->
  level t = level token
  /\ content t
     = match opt options label with
       | Some lab => lab (info t) (env state)
       | None => toBareHandle (info t) (env state)
       end
  /\ exists l,
       attrs t = Some l
       /\ match opt options link with
          | None => getProperty l (js "href") = Some (js "acct:" ++ info t)
          | Some g =>
              exists h, g (info t) (env state) = Some h
                        /\ getProperty l (js "href") = Some h
          end
       /\ forall k,
            k <> js "href" ->
            getProperty l k
            = getProperty
                match opt options linkAttributes with
                | Some a => a (info t) (env state)
                | None => []
                end k.
Proof.
  intros Hin. revert t Hin.
  apply (proj1 (Forall_forall
                  (fun t =>
                     type t = "mention"%string ->
                     level t = level token
                     /\ content t
                        = match opt options label with
                          | Some lab => lab (info t) (env state)
                          | None => toBareHandle (info t) (env state)
                          end
                     /\ exists l,
                          attrs t = Some l
                          /\ match opt options link with
                             | None =>
                                 getProperty l (js "href")
                                 = Some (js "acct:" ++ info t)
                             | Some g =>
                                 exists h,
                                   g (info t) (env state) = Some h
                                   /\ getProperty l (js "href") = Some h
                             end
                          /\ forall k,
                               k <> js "href" ->
                               getProperty l k
                               = getProperty
                                   match opt options linkAttributes with
                                   | Some a => a (info t) (env state)
                                   | None => []
                                   end k)
                  (splitTokens token state options))).
  apply agrees_splitTokens.
  - intros s Ht. discriminate.
  - intros handle Hconv _. split; [reflexivity|]. split; [reflexivity|].
    eexists. split; [reflexivity|]. cbn [info mentionToken set_info].
    split.
    + rewrite getProperty_setProperty. unfold resolveHref in *.
      destruct (opt options link) as [g|].
      * destruct Hconv as [Hn|[h Hh]]; [discriminate|].
        exists h. rewrite Hh. auto.
      * reflexivity.
    + intros k Hk. apply getProperty_setProperty_other. exact Hk.
Qed.

End SplitterFurther.

(** ** The scanner *)

Lemma structural_false (t : Token) :
  structural t = false
  <-> type t = "text"%string \/ type t = "mention"%string.
Proof.
  unfold structural, isText, isMention.
  rewrite andb_false_iff, !negb_false_iff, !String.eqb_eq. tauto.
Qed.


Section ScannerFurther.

Context {host : Host}.
Variables (state : StateCore) (options : option PluginOptions).

Lemma splitTokens_not_structural (token : Token) :
  filter structural (splitTokens token state options) = [].
Proof.
  destruct (splitTokens_pieces state options (content token) (level token)
              token eq_refl eq_refl) as (pieces & _ & H2 & _).
  induction H2 as [|p t pieces ts Hc _ IH]; [reflexivity|].
  simpl. replace (structural t) with false; [exact IH|].
  symmetry. apply structural_false.
  destruct Hc as [[Ht _]|[Ht _]]; auto.
Qed.

Lemma countDepth_not_structural (depth : Z * Z) (t : Token) :
  structural t = false -> countDepth depth t = depth.
Proof.
  intros Ht. apply structural_false in Ht. unfold countDepth.
  destruct depth as [l h]. destruct Ht as [-> | ->]; reflexivity.
Qed.

Lemma countDepth_filter (ts : list Token) :
  forall depth,
    fold_left countDepth ts depth
    = fold_left countDepth (filter structural ts) depth.
Proof.
  induction ts as [|t ts IH]; intros depth; simpl; [reflexivity|].
  destruct (structural t) eqn:Ht; simpl; [apply IH|].
  rewrite countDepth_not_structural by exact Ht. apply IH.
Qed.

Lemma flatMap_structural (children : list Token) :
  forall depth,
    filter structural (flatMap state options depth children)
    = filter structural children.
Proof.
  induction children as [|token rest IH]; intros depth; [reflexivity|].
  cbn [flatMap]. unfold visit.
  destruct (countDepth depth token) as [l h].
  rewrite filter_app, IH.
  destruct (keepsToken l h token) eqn:Hk;
    [simpl; destruct (structural token); reflexivity|].
  rewrite splitTokens_not_structural.
  apply keepsToken_false in Hk. destruct Hk as (Ht & _).
  simpl. replace (structural token) with false; [reflexivity|].
  symmetry. apply structural_false. auto.
Qed.

(** X6.  The scanner changes nothing but the text tokens of the inline
    blocks.  It keeps the environment and every block in its place; a
    block that is not inline, or has no children, is returned as it is;
    in the children of an inline block every token other than a text or
    mention token is kept, in order, none is added, so the link and
    anchor depth counted over the children is what it was. *)
Theorem parseMention_structure :
  env (parseMention state options) = env state
  /\ tokens (parseMention state options)
     = List.map (parseBlock state options) (tokens state)
  /\ forall blockToken,
       btype (parseBlock state options blockToken) = btype blockToken
       /\ (btype blockToken <> "inline"%string \/ children blockToken = None ->
           parseBlock state options blockToken = blockToken)
       /\ (forall cs,
             children blockToken = Some cs ->
             exists cs',
               children (parseBlock state options blockToken) = Some cs'
               /\ filter structural cs' = filter structural cs
               /\ forall depth,
                    fold_left countDepth cs' depth
                    = fold_left countDepth cs depth).
Proof.
  split; [reflexivity|]. split; [reflexivity|].
  intros blockToken. unfold parseBlock.
  destruct (btype blockToken =? "inline")%string eqn:Hb; cbn [negb].
  - apply String.eqb_eq in Hb.
    destruct (children blockToken) as [cs|] eqn:Hc; cbn [btype children].
    + split; [reflexivity|]. split; [intros [H|H]; congruence|].
      intros cs0 E. inversion E; subst cs0. eexists. split; [reflexivity|].
      split; [apply flatMap_structural|]. intros depth.
      rewrite countDepth_filter, flatMap_structural, <- countDepth_filter.
      reflexivity.
    + split; [reflexivity|]. split; [reflexivity|]. intros cs E. discriminate.
  - split; [reflexivity|]. split; [reflexivity|].
    intros cs E. exists cs. auto.
Qed.










End ScannerFurther.

(** ** The mention pattern *)

Lemma substring_split (s : str) (a b c : nat) :
  a <= b -> b <= c -> c <= length s ->
  substring s a c = substring s a b ++ substring s b c.
Proof.
  intros Hab Hbc Hc.
  apply (app_inv_head (firstn a s)).
  rewrite app_assoc, !firstn_step by lia. reflexivity.
Qed.

Lemma substring_one (s : str) (a : nat) (ch : char) :
  nth_error s a = Some ch -> substring s a (S a) = [ch].
Proof.
  intros Hn.
  assert (Ha : a < length s) by (apply nth_error_Some; congruence).
  rewrite substring_cut by lia.
  replace (S a - a) with 1 by lia.
  destruct (skipn a s) as [|c0 rest] eqn:Hs.
  - apply (f_equal (@length char)) in Hs. rewrite length_skipn in Hs.
    simpl in Hs. lia.
  - simpl. f_equal.
    rewrite <- (firstn_skipn a s), Hs, nth_error_app2 in Hn
      by (rewrite length_firstn; lia).
    rewrite length_firstn, Nat.min_l, Nat.sub_diag in Hn by lia.
    simpl in Hn. congruence.
Qed.

Lemma substring_empty (s : str) (a : nat) : substring s a a = [].
Proof.
  unfold substring. rewrite Nat.min_id, Nat.max_id, Nat.sub_diag.
  reflexivity.
Qed.

Lemma clearCaptures_nil (x : MatchState) : clearCaptures [] x = x.
Proof. destruct x. reflexivity. Qed.

Section PatternFacts.

Variable Input : str.

Lemma CharacterSetMatcher_inv (p : char -> bool) (x : MatchState)
  (c : Continuation) (z : MatchState) :
  CharacterSetMatcher Input p x c = Some z ->
  exists ch, nth_error Input (endIndex x) = Some ch
             /\ p ch = true
             /\ c {| endIndex := S (endIndex x); captures := captures x |}
                = Some z.
Proof.
  unfold CharacterSetMatcher.
  destruct (nth_error Input (endIndex x)) as [ch|]; [|discriminate].
  destruct (p ch) eqn:Hp; [|discriminate].
  intros E. exists ch. auto.
Qed.

(** The matcher is sound: when it succeeds, the pattern leads from the
    state it started in to a state its continuation accepts. *)
Lemma RepeatMatcher_sound (m : Matcher)
  (R : MatchState -> MatchState -> Prop) :
  (forall x c z, m x c = Some z -> exists y, R x y /\ c y = Some z) ->
  forall fuel min max parens x c z,
    (forall M, max = Some M -> min <= M) ->
    RepeatMatcher m fuel min max parens x c = Some z ->
    exists k y, min <= k
                /\ (forall M, max = Some M -> k <= M)
                /\ iter R parens k x y
                /\ c y = Some z.
Proof.
  intros Hm fuel.
  induction fuel as [|fuel IH]; intros min max parens x c z Hwf E.
  - simpl in E. destruct max as [[|M]|]; try discriminate.
    exists 0, x. specialize (Hwf 0 eq_refl).
    repeat split; auto; intros; lia.
  - assert (Hstep : forall w,
      m (clearCaptures parens x)
        (fun y =>
           if (min =? 0) && (endIndex y =? endIndex x) then None
           else RepeatMatcher m fuel (Nat.pred min)
                  (option_map Nat.pred max) parens y c) = Some w ->
      (forall M, max = Some M -> 1 <= M) ->
      exists k y, min <= k
                  /\ (forall M, max = Some M -> k <= M)
                  /\ iter R parens k x y
                  /\ c y = Some w).
    { intros w Ew Hmax. apply Hm in Ew. destruct Ew as (y1 & Hy1 & Ey).
      destruct ((min =? 0) && (endIndex y1 =? endIndex x)); [discriminate|].
      apply IH in Ey.
      - destruct Ey as (k & y & H1 & H2 & H3 & H4).
        exists (S k), y. split; [lia|]. split.
        + intros M HM. specialize (Hmax M HM).
          specialize (H2 (Nat.pred M)). rewrite HM in H2.
          specialize (H2 eq_refl). lia.
        + split; [|exact H4]. exists y1. auto.
      - intros M HM. destruct max as [M0|]; [|discriminate].
        simpl in HM. inversion HM; subst M.
        specialize (Hwf M0 eq_refl). lia. }
    simpl in E. destruct max as [[|M]|].
    + exists 0, x. specialize (Hwf 0 eq_refl).
      repeat split; auto; intros; lia.
    + assert (Hmax : forall M0, Some (S M) = Some M0 -> 1 <= M0)
        by (intros M0 HM; inversion HM; lia).
      destruct (negb (min =? 0)) eqn:Hmin; [apply Hstep; assumption|].
      apply negb_false_iff, Nat.eqb_eq in Hmin.
      match type of E with
      | match ?t with _ => _ end = _ => destruct t as [w|] eqn:Em
      end.
      * inversion E; subst w. apply Hstep; [reflexivity | assumption].
      * exists 0, x. repeat split; auto; intros; lia.
    + assert (Hmax : forall M0, @None nat = Some M0 -> 1 <= M0)
        by (intros M0 HM; discriminate).
      destruct (negb (min =? 0)) eqn:Hmin; [apply Hstep; assumption|].
      apply negb_false_iff, Nat.eqb_eq in Hmin.
      match type of E with
      | match ?t with _ => _ end = _ => destruct t as [w|] eqn:Em
      end.
      * inversion E; subst w. apply Hstep; [reflexivity | assumption].
      * exists 0, x. repeat split; auto; intros; try lia; discriminate.
Qed.

Lemma compile_sound (r : Regex) :
  wellFormed r = true ->
  forall x c z,
    compile Input r x c = Some z ->
    exists y, Run Input r x y /\ c y = Some z.
Proof.
  induction r as [ch|p|r1 IH1 r2 IH2|r IH min max|n r IH]; intros Hwf x c z E.
  - apply CharacterSetMatcher_inv in E. destruct E as (ch' & Hn & Hp & Ec).
    apply N.eqb_eq in Hp. subst ch'. eexists. split; [|exact Ec].
    split; [exact Hn | reflexivity].
  - apply CharacterSetMatcher_inv in E. destruct E as (ch & Hn & Hp & Ec).
    eexists. split; [|exact Ec]. exists ch. auto.
  - simpl in Hwf. apply andb_true_iff in Hwf. destruct Hwf as [H1 H2].
    simpl in E. apply (IH1 H1) in E. destruct E as (y1 & Hr1 & E).
    apply (IH2 H2) in E. destruct E as (y & Hr2 & Ec).
    exists y. split; [|exact Ec]. exists y1. auto.
  - simpl in Hwf. apply andb_true_iff in Hwf. destruct Hwf as [H1 H2].
    change (RepeatMatcher (compile Input r)
              (S (min + (length Input - endIndex x))) min max (groupsOf r)
              x c = Some z) in E.
    apply (RepeatMatcher_sound _ (Run Input r) (IH H1)) in E.
    + destruct E as (k & y & Hk1 & Hk2 & Hit & Ec).
      exists y. split; [|exact Ec]. exists k. auto.
    + intros M HM. subst max. apply Nat.leb_le. exact H2.
  - simpl in Hwf. simpl in E. apply (IH Hwf) in E.
    destruct E as (y0 & Hr & Ec). eexists. split; [|exact Ec].
    exists y0. auto.
Qed.

(** A run stays inside the subject and covers a word of the pattern. *)
Lemma iter_Lang (R : MatchState -> MatchState -> Prop)
  (P : str -> Prop) (parens : list nat) :
  (forall x y, endIndex x <= length Input -> R x y ->
     endIndex x <= endIndex y /\ endIndex y <= length Input
     /\ P (substring Input (endIndex x) (endIndex y))) ->
  forall k x y,
    endIndex x <= length Input -> iter R parens k x y ->
    endIndex x <= endIndex y /\ endIndex y <= length Input
    /\ exists ws, length ws = k
                  /\ substring Input (endIndex x) (endIndex y) = concat ws
                  /\ Forall P ws.
Proof.
  intros HR k. induction k as [|k IH]; intros x y Hx Hit; simpl in Hit.
  - subst y. split; [lia|]. split; [exact Hx|].
    exists []. rewrite substring_empty. auto.
  - destruct Hit as (y1 & Hr & Hit).
    apply HR in Hr; [|exact Hx]. simpl in Hr. destruct Hr as (H1 & H2 & H3).
    apply IH in Hit; [|exact H2].
    destruct Hit as (H4 & H5 & ws & Hl & Hs & Hf).
    split; [lia|]. split; [exact H5|].
    exists (substring Input (endIndex x) (endIndex y1) :: ws).
    split; [simpl; lia|]. split; [|constructor; assumption].
    simpl. rewrite <- Hs. apply substring_split; assumption.
Qed.

Lemma Run_Lang (r : Regex) :
  forall x y,
    endIndex x <= length Input -> Run Input r x y ->
    endIndex x <= endIndex y /\ endIndex y <= length Input
    /\ Lang r (substring Input (endIndex x) (endIndex y)).
Proof.
  induction r as [ch|p|r1 IH1 r2 IH2|r IH min max|n r IH];
    intros x y Hx Hr; simpl in Hr.
  - destruct Hr as [Hn ->]. simpl.
    assert (endIndex x < length Input)
      by (apply nth_error_Some; congruence).
    split; [lia|]. split; [lia|]. apply substring_one. exact Hn.
  - destruct Hr as (ch & Hn & Hp & ->). simpl.
    assert (endIndex x < length Input)
      by (apply nth_error_Some; congruence).
    split; [lia|]. split; [lia|]. exists ch.
    split; [apply substring_one; exact Hn | exact Hp].
  - destruct Hr as (y1 & Hr1 & Hr2).
    apply IH1 in Hr1; [|exact Hx]. destruct Hr1 as (H1 & H2 & H3).
    apply IH2 in Hr2; [|exact H2]. destruct Hr2 as (H4 & H5 & H6).
    split; [lia|]. split; [exact H5|]. simpl.
    exists (substring Input (endIndex x) (endIndex y1)),
           (substring Input (endIndex y1) (endIndex y)).
    split; [apply substring_split; assumption | auto].
  - destruct Hr as (k & Hk1 & Hk2 & Hit).
    apply (iter_Lang _ (Lang r) _ IH) in Hit; [|exact Hx].
    destruct Hit as (H1 & H2 & ws & Hl & Hs & Hf).
    split; [exact H1|]. split; [exact H2|]. simpl.
    exists ws. rewrite Hl. auto.
  - destruct Hr as (y0 & Hr & ->). simpl.
    apply IH in Hr; [|exact Hx]. exact Hr.
Qed.

(** A pattern without groups leaves the captures alone. *)
Lemma Run_captures (r : Regex) :
  groupsOf r = [] ->
  forall x y, Run Input r x y -> captures y = captures x.
Proof.
  induction r as [ch|p|r1 IH1 r2 IH2|r IH min max|n r IH];
    intros Hg x y Hr; simpl in Hr; simpl in Hg.
  - destruct Hr as [_ ->]. reflexivity.
  - destruct Hr as (ch & _ & _ & ->). reflexivity.
  - apply app_eq_nil in Hg. destruct Hg as [Hg1 Hg2].
    destruct Hr as (y1 & Hr1 & Hr2).
    rewrite (IH2 Hg2 _ _ Hr2). apply (IH1 Hg1 _ _ Hr1).
  - destruct Hr as (k & _ & _ & Hit). rewrite Hg in Hit.
    revert x Hit. induction k as [|k IHk]; intros x Hit; simpl in Hit.
    + subst y. reflexivity.
    + destruct Hit as (y1 & Hr & Hit).
      rewrite (IHk _ Hit), (IH Hg _ _ Hr), clearCaptures_nil. reflexivity.
  - discriminate.
Qed.

(** Every match of [matchAll] is a successful attempt at its index. *)
Lemma scan_In (r : Regex) (starts : list nat) :
  Forall (fun i => i <= length Input) starts ->
  forall lastIndex m,
    In m (scan r Input starts lastIndex) ->
    exists i y, i <= length Input
                /\ matchAt Input r i = Some y
                /\ m = toMatch Input i y.
Proof.
  induction 1 as [|i starts Hi _ IH]; intros lastIndex m; simpl; [tauto|].
  destruct (i <? lastIndex); [apply IH|].
  destruct (matchAt Input r i) as [y|] eqn:Hm; [|apply IH].
  intros [<-|Hin]; [|eapply IH; exact Hin].
  exists i, y. auto.
Qed.

Lemma matchAll_In (r : Regex) (m : RegExpMatch) :
  In m (matchAll r Input) ->
  exists i y, i <= length Input
              /\ matchAt Input r i = Some y
              /\ m = toMatch Input i y.
Proof.
  apply scan_In. apply Forall_forall. intros i Hi. apply in_seq in Hi. lia.
Qed.

End PatternFacts.

Lemma Lang_class_repeat (p : char -> bool) (min : nat) (max : option nat)
  (w : str) :
  Lang (RRepeat (RClass p) min max) w ->
  min <= length w /\ forallb p w = true.
Proof.
  simpl. intros (ws & -> & Hmin & _ & Hf).
  assert (H : length (concat ws) = length ws
              /\ forallb p (concat ws) = true).
  { clear Hmin. induction Hf as [|w ws (c & -> & Hp) _ [IH1 IH2]].
    - auto.
    - simpl. rewrite IH1, Hp, IH2. auto. }
  destruct H as [-> H]. auto.
Qed.

Section PatternShape.

Context {host : Host}.

Lemma wellFormed_MENTION_PATTERN : wellFormed MENTION_PATTERN = true.
Proof. reflexivity. Qed.

Lemma Lang_label (w : str) :
  Lang (RSeq (RClass letterOrNumber)
          (RSeq (RRepeat (RClass labelChar) 0 None) (RChar DOT))) w ->
  exists l, w = l ++ [DOT] /\ isLabel l.
Proof.
  intros (w1 & w2 & -> & (c & -> & Hc) & (w3 & w4 & -> & H3 & H4)).
  apply Lang_class_repeat in H3. destruct H3 as [_ H3].
  simpl in H4. subst w4.
  exists (c :: w3). split; [reflexivity|]. exists c, w3. auto.
Qed.

Lemma Lang_labels (ws : list str) :
  Forall (Lang (RSeq (RClass letterOrNumber)
                  (RSeq (RRepeat (RClass labelChar) 0 None) (RChar DOT))))
    ws ->
  exists labels, ws = List.map (fun l => l ++ [DOT]) labels
                 /\ Forall isLabel labels.
Proof.
  induction 1 as [|w ws Hw _ (labels & -> & Hl)].
  - exists []. auto.
  - apply Lang_label in Hw. destruct Hw as (l & -> & Hl0).
    exists (l :: labels). auto.
Qed.

Lemma Lang_domain (g : str) :
  Lang (RSeq (RChar AT)
          (RSeq
             (RRepeat
                (RSeq (RClass letterOrNumber)
                   (RSeq (RRepeat (RClass labelChar) 0 None) (RChar DOT)))
                1 None)
             (RRepeat (RClass letterOrNumber) 2 None))) g ->
  isDomainPart g.
Proof.
  intros (w1 & w2 & -> & H1 & (w3 & w4 & -> & H3 & H4)).
  simpl in H1. subst w1.
  destruct H3 as (ws & -> & Hmin & _ & Hf).
  apply Lang_labels in Hf. destruct Hf as (labels & -> & Hl).
  apply Lang_class_repeat in H4. destruct H4 as [H4 H5].
  exists labels, w4. split; [reflexivity|]. split; [|auto].
  rewrite length_map in Hmin. destruct labels; [simpl in Hmin; lia|].
  discriminate.
Qed.

(** A successful attempt of the pattern: the state it ends in, and the
    words it covers. *)
Lemma matchAt_shape (s : str) (i : nat) (y : MatchState) :
  i <= length s ->
  matchAt s MENTION_PATTERN i = Some y ->
  exists e2,
    S i <= e2 /\ e2 <= endIndex y /\ endIndex y <= length s
    /\ substring s i (S i) = [AT]
    /\ substring s (S i) e2 <> []
    /\ forallb handleChar (substring s (S i) e2) = true
    /\ ((endIndex y = e2 /\ captures y = [None])
        \/ (captures y = [Some (e2, endIndex y)]
            /\ isDomainPart (substring s e2 (endIndex y)))).
Proof.
  intros Hi E. unfold matchAt in E.
  apply (compile_sound s _ wellFormed_MENTION_PATTERN) in E.
  destruct E as (y' & Hr & Ey). inversion Ey; subst y'. clear Ey.
  change (list_max (groupsOf MENTION_PATTERN)) with 1 in Hr.
  unfold MENTION_PATTERN in Hr.
  destruct Hr as (y1 & Hchar & y2 & Hplus & Hopt).
  destruct Hchar as [Hat Hy1]. cbn [endIndex captures repeat] in Hat, Hy1.
  assert (H1 : endIndex y1 = S i) by (subst y1; reflexivity).
  assert (Hlt : i < length s) by (apply nth_error_Some; congruence).
  assert (Hplus' := Hplus).
  apply Run_Lang in Hplus'; [|rewrite H1; lia].
  destruct Hplus' as (H2 & H3 & HL). rewrite H1 in H2, HL.
  apply Lang_class_repeat in HL. destruct HL as [HL1 HL2].
  assert (Hc2 : captures y2 = [None]).
  { rewrite (Run_captures s (RRepeat (RClass handleChar) 1 None) eq_refl
               _ _ Hplus). subst y1. reflexivity. }
  exists (endIndex y2).
  destruct Hopt as (k & _ & Hk & Hit). specialize (Hk 1 eq_refl).
  assert (Hname : substring s (S i) (endIndex y2) <> []).
  { intros E0. rewrite E0 in HL1. simpl in HL1. lia. }
  destruct k as [|[|k]]; [| |lia].
  - change (y = y2) in Hit. subst y. repeat split; auto; try lia.
    apply substring_one. exact Hat.
  - destruct Hit as (y3 & Hgroup & Hy). change (y = y3) in Hy. subst y3.
    destruct Hgroup as (y0 & HG & Hy).
    assert (Hcl : captures (clearCaptures [1] y2) = [None])
      by (simpl; rewrite Hc2; reflexivity).
    assert (HG' := HG).
    apply Run_Lang in HG'; [|simpl; lia].
    destruct HG' as (H4 & H5 & HLg).
    change (endIndex (clearCaptures _ y2)) with (endIndex y2) in H4, HLg, Hy.
    apply Run_captures in HG; [|reflexivity].
    change (groupsOf _) with [1] in HG. rewrite Hcl in HG.
    subst y. cbn [endIndex captures]. rewrite HG.
    repeat split; auto; try lia.
    + apply substring_one. exact Hat.
    + right. split; [reflexivity|]. apply Lang_domain. exact HLg.
Qed.

(** X9.  Every match of the mention pattern is [@] and a name of one or
    more letters, numbers, dots, underscores or hyphens; a match with a
    domain (group 1) goes on with the domain part, and the group is that
    part: [@], one or more labels each followed by a dot, and a last
    label of two or more letters or numbers. *)
Theorem mention_pattern_shape (s : str) (m : RegExpMatch) :
  In m (matchAll MENTION_PATTERN s) ->
  exists name,
    name <> []
    /\ forallb handleChar name = true
    /\ match group1 m with
       | None => whole m = AT :: name
       | Some g => whole m = AT :: name ++ g /\ isDomainPart g
       end.
Proof.
  intros Hin. apply matchAll_In in Hin.
  destruct Hin as (i & y & Hi & Hm & ->).
  apply matchAt_shape in Hm; [|exact Hi].
  destruct Hm as (e2 & H1 & H2 & H3 & Hat & Hne & Hh & Hcase).
  exists (substring s (S i) e2). split; [exact Hne|]. split; [exact Hh|].
  unfold toMatch. cbn [group1 whole getCapture].
  destruct Hcase as [[He Hc]|[Hc Hd]]; rewrite Hc; cbn [nth option_map].
  - rewrite He. rewrite (substring_split s i (S i) e2) by lia.
    rewrite Hat. reflexivity.
  - cbn [fst snd]. split; [|exact Hd].
    rewrite (substring_split s i (S i) (endIndex y)) by lia.
    rewrite (substring_split s (S i) e2 (endIndex y)) by lia.
    rewrite Hat. reflexivity.
Qed.

End PatternShape.

(** *** Greedy quantifiers take all they can *)

Section Greedy.

Variable Input : str.

Lemma compile_seq (r1 r2 : Regex) (x : MatchState) (c : Continuation) :
  compile Input (RSeq r1 r2) x c
  = compile Input r1 x (fun y => compile Input r2 y c).
Proof. reflexivity. Qed.

Lemma compile_repeat (r : Regex) (min : nat) (max : option nat)
  (x : MatchState) (c : Continuation) :
  compile Input (RRepeat r min max) x c
  = RepeatMatcher (compile Input r)
      (S (min + (length Input - endIndex x))) min max (groupsOf r) x c.
Proof. reflexivity. Qed.

Lemma RepeatMatcher_unfold (m : Matcher) (fuel min : nat)
  (parens : list nat) (x : MatchState) (c : Continuation) :
  RepeatMatcher m (S fuel) min None parens x c
  = if negb (min =? 0)
    then m (clearCaptures parens x)
           (fun y =>
              if (min =? 0) && (endIndex y =? endIndex x) then None
              else RepeatMatcher m fuel (Nat.pred min) None parens y c)
    else match m (clearCaptures parens x)
                 (fun y =>
                    if (min =? 0) && (endIndex y =? endIndex x) then None
                    else RepeatMatcher m fuel (Nat.pred min) None parens y c)
         with
         | Some z => Some z
         | None => c x
         end.
Proof. reflexivity. Qed.

Lemma RepeatMatcher_total (m : Matcher) (fuel : nat) (parens : list nat)
  (x : MatchState) (c : Continuation) :
  c x <> None -> RepeatMatcher m (S fuel) 0 None parens x c <> None.
Proof.
  intros Hc. rewrite RepeatMatcher_unfold. cbn [Nat.eqb negb].
  destruct (m (clearCaptures parens x) _); [discriminate | exact Hc].
Qed.

Lemma RepeatMatcher_zero (m : Matcher) (fuel min : nat)
  (parens : list nat) (x : MatchState) (c : Continuation) :
  RepeatMatcher m fuel min (Some 0) parens x c = c x.
Proof. destruct fuel; reflexivity. Qed.

Lemma RepeatMatcher_unfold_opt (m : Matcher) (fuel : nat)
  (parens : list nat) (x : MatchState) (c : Continuation) :
  RepeatMatcher m (S fuel) 0 (Some 1) parens x c
  = match m (clearCaptures parens x)
            (fun y => if endIndex y =? endIndex x then None else c y)
    with
    | Some z => Some z
    | None => c x
    end.
Proof.
  cbn [RepeatMatcher Nat.eqb negb andb option_map Nat.pred].
  replace (fun y : MatchState =>
             if endIndex y =? endIndex x then None
             else RepeatMatcher m fuel 0 (Some 0) parens y c)
    with (fun y : MatchState =>
            if endIndex y =? endIndex x then None else c y);
    [reflexivity|].
  destruct fuel; reflexivity.
Qed.

(** A greedy quantifier over a class, followed by something that cannot
    fail, stops where the class stops. *)
Lemma greedy_class (p : char -> bool) (lo : nat) (c : Continuation)
  (z : MatchState) :
  (forall y, lo < endIndex y -> c y <> None) ->
  forall fuel min x,
    lo <= endIndex x -> endIndex x <= length Input ->
    min + (length Input - endIndex x) < fuel ->
    RepeatMatcher (CharacterSetMatcher Input p) fuel min None [] x c
    = Some z ->
    exists y,
      c y = Some z
      /\ captures y = captures x
      /\ endIndex x <= endIndex y
      /\ endIndex y <= length Input
      /\ forall ch, nth_error Input (endIndex y) = Some ch -> p ch = false.
Proof.
  intros Hc fuel.
  induction fuel as [|fuel IH]; intros min x Hlo Hx Hf E; [lia|].
  rewrite RepeatMatcher_unfold, clearCaptures_nil in E.
  unfold CharacterSetMatcher at 1 3 in E.
  destruct (nth_error Input (endIndex x)) as [ch|] eqn:Hn.
  - assert (Hlt : endIndex x < length Input)
      by (apply nth_error_Some; congruence).
    destruct (p ch) eqn:Hp.
    + cbn [endIndex] in E.
      replace (S (endIndex x) =? endIndex x) with false in E
        by (symmetry; apply Nat.eqb_neq; lia).
      rewrite andb_false_r in E.
      assert (E' : RepeatMatcher (CharacterSetMatcher Input p) fuel
                     (Nat.pred min) None []
                     {| endIndex := S (endIndex x); captures := captures x |}
                     c = Some z).
      { destruct (min =? 0) eqn:Hmin; cbn [negb] in E; [|exact E].
        apply Nat.eqb_eq in Hmin. subst min.
        destruct fuel as [|fuel']; [lia|].
        destruct (RepeatMatcher (CharacterSetMatcher Input p) (S fuel')
                    (Nat.pred 0) None []
                    {| endIndex := S (endIndex x); captures := captures x |}
                    c) as [w|] eqn:Ew; [exact E|].
        exfalso. revert Ew. apply RepeatMatcher_total.
        apply Hc. simpl. lia. }
      apply IH in E'; simpl; try lia.
      destruct E' as (y & H1 & H2 & H3 & H4 & H5). simpl in H2, H3.
      exists y. repeat split; auto. lia.
    + destruct (min =? 0); cbn [negb] in E; [|discriminate].
      exists x. repeat split; auto. intros ch' Hn'. congruence.
  - destruct (min =? 0); cbn [negb] in E; [|discriminate].
    exists x. repeat split; auto. intros ch' Hn'. congruence.
Qed.

End Greedy.

Section PatternGreedy.

Context {host : Host}.

Lemma matchAt_maximal (s : str) (i : nat) (y : MatchState) :
  i <= length s ->
  matchAt s MENTION_PATTERN i = Some y ->
  endIndex y <= length s
  /\ forall ch,
       nth_error s (endIndex y) = Some ch ->
       match getCapture 1 (captures y) with
       | None => handleChar ch = false
       | Some _ => letterOrNumber ch = false
       end.
Proof.
  intros Hi E. unfold matchAt in E.
  change (list_max (groupsOf MENTION_PATTERN)) with 1 in E.
  unfold MENTION_PATTERN in E. rewrite compile_seq in E.
  apply CharacterSetMatcher_inv in E. destruct E as (c0 & Hn0 & _ & E).
  cbn [endIndex captures repeat] in Hn0, E.
  assert (Hlt : i < length s) by (apply nth_error_Some; congruence).
  rewrite compile_seq, compile_repeat in E.
  apply (greedy_class s handleChar 0) in E; cbn [endIndex]; try lia.
  - (* the name is taken whole *)
    destruct E as (y2 & E & Hc2 & H2 & H3 & Hnext).
    cbn [captures endIndex] in Hc2, H2.
    rewrite compile_repeat in E. cbn [Nat.add] in E.
    rewrite RepeatMatcher_unfold_opt in E.
    match type of E with
    | match ?t with _ => _ end = _ => destruct t as [w|] eqn:Eg
    end.
    + (* a domain follows *)
      inversion E; subst w. clear E.
      change (compile s (RGroup 1 ?G) ?x ?d)
        with (compile s G x
                (fun y0 =>
                   d {| endIndex := endIndex y0;
                        captures := setCapture 1
                                      (Some (endIndex x, endIndex y0))
                                      (captures y0) |})) in Eg.
      rewrite compile_seq in Eg.
      apply CharacterSetMatcher_inv in Eg.
      destruct Eg as (c1 & Hn1 & _ & Eg).
      cbn [endIndex captures clearCaptures fold_left groupsOf app] in Hn1, Eg.
      assert (Hlt2 : endIndex y2 < length s)
        by (apply nth_error_Some; congruence).
      rewrite compile_seq in Eg.
      apply compile_sound in Eg; [|reflexivity].
      destruct Eg as (yb & Hlab & Eg).
      assert (Hlab' := Hlab).
      apply Run_Lang in Hlab'; [|cbn [endIndex]; lia].
      cbn [endIndex] in Hlab'. destruct Hlab' as (H4 & H5 & _).
      apply Run_captures in Hlab; [|reflexivity].
      cbn [captures] in Hlab.
      rewrite compile_repeat in Eg.
      apply (greedy_class s letterOrNumber (endIndex y2)) in Eg; try lia.
      * destruct Eg as (y0 & Eg & Hc0 & H6 & H7 & Hnext0).
        cbn [endIndex] in Eg.
        destruct (endIndex y0 =? endIndex y2) eqn:E0;
          [apply Nat.eqb_eq in E0; lia|].
        inversion Eg; subst y. clear Eg.
        cbn [endIndex captures]. split; [exact H7|].
        intros ch Hch. apply Hnext0 in Hch.
        rewrite Hc0, Hlab, Hc2. exact Hch.
      * intros y0 Hy0. cbn [endIndex].
        replace (endIndex y0 =? endIndex y2) with false
          by (symmetry; apply Nat.eqb_neq; lia).
        discriminate.
    + (* no domain *)
      inversion E; subst y. split; [exact H3|].
      intros ch Hch. rewrite Hc2. apply Hnext. exact Hch.
  - intros y2 _. rewrite compile_repeat. cbn [Nat.add].
    rewrite RepeatMatcher_unfold_opt.
    destruct (compile s _ _ _); discriminate.
Qed.

(** X10.  The pattern is greedy: the code point that follows a match in the
    text, when there is one, is not a handle character after a bare handle
    and not a letter or number after a full handle.  A match never stops in
    the middle of a name or of a top-level domain. *)
Theorem mention_pattern_maximal (s : str) (m : RegExpMatch) (ch : char) :
  In m (matchAll MENTION_PATTERN s) ->
  nth_error s (index m + length (whole m)) = Some ch ->
  match group1 m with
  | None => handleChar ch = false
  | Some _ => letterOrNumber ch = false
  end.
Proof.
  intros Hin Hch. apply matchAll_In in Hin.
  destruct Hin as (i & y & Hi & Hm & ->).
  destruct (matchAt_bounds s _ _ _ Hi Hm) as [Hlo Hhi].
  rewrite toMatch_whole in Hch by lia.
  destruct (matchAt_maximal s i y Hi Hm) as [_ Hnext].
  apply Hnext in Hch. unfold toMatch. cbn [group1].
  destruct (getCapture 1 (captures y)); exact Hch.
Qed.

End PatternGreedy.

(** ** The further properties at concrete inputs *)

Lemma splitTokens_verbatim_witness :
  Forall (fun t => isMention t = false)
    (@splitTokens asciiHost (textToken (js "hi @a@b.com") 0)
       (mkState [] EnvOther)
       (Some (mkOptions None (Some (fun _ _ => None)) None None)))
  /\ concat (List.map content
       (@splitTokens asciiHost (textToken (js "hi @a@b.com") 0)
          (mkState [] EnvOther)
          (Some (mkOptions None (Some (fun _ _ => None)) None None))))
     = js "hi @a@b.com".
Proof.
  split; [vm_compute; repeat constructor|].
  apply (@splitTokens_verbatim asciiHost (mkState [] EnvOther)
           (Some (mkOptions None (Some (fun _ _ => None)) None None))
           (textToken (js "hi @a@b.com") 0)).
  vm_compute; repeat constructor.
Defined.


Lemma mention_pattern_shape_witness :
  In {| index := 3; whole := js "@a@b.com"; group1 := Some (js "@b.com") |}
    (matchAll (@MENTION_PATTERN asciiHost) (js "hi @a@b.com!"))
  /\ exists name,
       name <> []
       /\ forallb (@handleChar asciiHost) name = true
       /\ js "@a@b.com" = AT :: name ++ js "@b.com"
       /\ @isDomainPart asciiHost (js "@b.com").
Proof.
  split; [vm_compute; left; reflexivity|].
  apply (@mention_pattern_shape asciiHost (js "hi @a@b.com!")
           {| index := 3; whole := js "@a@b.com";
              group1 := Some (js "@b.com") |}).
  vm_compute; left; reflexivity.
Defined.

Lemma mention_pattern_maximal_witness :
  In {| index := 3; whole := js "@a@b.com"; group1 := Some (js "@b.com") |}
    (matchAll (@MENTION_PATTERN asciiHost) (js "hi @a@b.com!"))
  /\ nth_error (js "hi @a@b.com!") (3 + 8) = Some 33%N
  /\ @letterOrNumber asciiHost 33%N = false.
Proof.
  split; [vm_compute; left; reflexivity|].
  split; [reflexivity|].
  apply (@mention_pattern_maximal asciiHost (js "hi @a@b.com!")
           {| index := 3; whole := js "@a@b.com";
              group1 := Some (js "@b.com") |} 33%N).
  - vm_compute; left; reflexivity.
  - reflexivity.
Defined.

Lemma mention_attribute_lookup_witness :
  (In {| type := "mention"; tag := ""; nesting := 0;
         attrs := Some [ (js "class", js "m");
                         (js "href", js "https://x/@a@b.com") ];
         level := 2; content := js "label"; info := js "@a@b.com" |}
      (@splitTokens asciiHost (textToken (js "hi @a@b.com") 2)
         (mkState [] EnvOther)
         (Some (mkOptions None
                  (Some (fun h _ => Some (js "https://x/" ++ h)))
                  (Some (fun _ _ => [(js "class", js "m")]))
                  (Some (fun _ _ => js "label")))))
   /\ "mention"%string = "mention"%string)
  /\ exists l,
       Some [ (js "class", js "m"); (js "href", js "https://x/@a@b.com") ]
       = Some l
       /\ (exists h, Some (js "https://x/@a@b.com") = Some h
                     /\ getProperty l (js "href") = Some h)
       /\ forall k,
            k <> js "href" ->
            getProperty l k = getProperty [(js "class", js "m")] k.
Proof.
  assert (H : In {| type := "mention"; tag := ""; nesting := 0;
                    attrs := Some [ (js "class", js "m");
                                    (js "href", js "https://x/@a@b.com") ];
                    level := 2; content := js "label";
                    info := js "@a@b.com" |}
                (@splitTokens asciiHost (textToken (js "hi @a@b.com") 2)
                   (mkState [] EnvOther)
                   (Some (mkOptions None
                            (Some (fun h _ => Some (js "https://x/" ++ h)))
                            (Some (fun _ _ => [(js "class", js "m")]))
                            (Some (fun _ _ => js "label"))))))
    by (vm_compute; right; left; reflexivity).
  split; [split; [exact H | reflexivity]|].
  exact (proj2
           (proj2
              (@mention_attribute_lookup asciiHost (mkState [] EnvOther)
                 (Some (mkOptions None
                          (Some (fun h _ => Some (js "https://x/" ++ h)))
                          (Some (fun _ _ => [(js "class", js "m")]))
                          (Some (fun _ _ => js "label"))))
                 (textToken (js "hi @a@b.com") 2) _ H eq_refl))).
Defined.

